(** * Greedy binary expansions: a shallow embedding of
    [Greedy_Binary_Expansions_Algorithm.py] and the properties of its core
    functions [binary_exponents], [partial_binary_sum] and
    [exps_to_bitstring].

    Python's [int] is modelled by [Z], [fractions.Fraction] by the canonical
    rationals [Qc] of the Standard Library (numerator and denominator in
    lowest terms, positive denominator, equality is Leibniz equality), [str]
    by [string].  Exceptions are modelled by an error monad. *)

From Stdlib Require Import ZArith QArith Qpower Qcanon List Sorted String Ascii.
From Stdlib Require Import Lia Lqa Bool.
Import ListNotations.

Local Open Scope Z_scope.

(** ** Exceptions *)

Inductive PyError : Type :=
| ValueError_n_must_be_at_least_1   (* raise ValueError("n must be at least 1") *)
| ValueError_negative_shift_count   (* a << b with b < 0 *)
| ZeroDivisionError.                (* Fraction division by zero *)

Inductive result (A : Type) : Type :=
| Ok (a : A)
| Raise (e : PyError).

Arguments Ok {A} a.
Arguments Raise {A} e.

Definition bind {A B : Type} (c : result A) (k : A -> result B) : result B :=
  match c with
  | Ok a => k a
  | Raise e => Raise e
  end.

Notation "x <- c ;; k" := (bind c (fun x => k))
  (at level 61, c at next level, right associativity).
Notation "' pat <- c ;; k" := (bind c (fun x => match x with pat => k end))
  (at level 61, pat pattern, c at next level, right associativity).

(** ** Python integers *)

Module PyInt.

(** [int.bit_length()]: the number of bits of the magnitude, 0 for 0. *)
Definition bit_length (z : Z) : Z :=
  if z =? 0 then 0 else Z.log2 (Z.abs z) + 1.

(** [a << k]: raises [ValueError] on a negative shift count. *)
Definition lshift (a k : Z) : result Z :=
  if k <? 0 then Raise ValueError_negative_shift_count
  else Ok (Z.shiftl a k).

End PyInt.

(** ** Python fractions *)

Module PyFraction.

(** An [int] used as an operand of a [Fraction] operation. *)
Definition of_int (z : Z) : Qc := Q2Qc (inject_Z z).

(** [Fraction(n, d)]. *)
Definition Fraction (n d : Z) : result Qc :=
  if d =? 0 then Raise ZeroDivisionError
  else Ok (Q2Qc (inject_Z n / inject_Z d)).

(** [a / b] on fractions. *)
Definition truediv (a b : Qc) : result Qc :=
  if Qc_eq_bool b 0 then Raise ZeroDivisionError
  else Ok (a / b)%Qc.

Definition numerator (x : Qc) : Z := Qnum (this x).
Definition denominator (x : Qc) : Z := Zpos (Qden (this x)).

End PyFraction.

Import PyInt PyFraction.

(** ** [binary_exponents] *)

(** Lines 53-55: [floor(log2(p/q))] via bit lengths. *)
Definition floor_log2 (p q : Z) : result Z :=
  let bits_p := bit_length p in
  let bits_q := bit_length q in
  let candidate := bits_p - bits_q in
  s <- lshift q candidate ;;
  Ok (if p <? s then candidate - 1 else candidate).

(** Line 58: [ceil(log2(p/q))]. *)
Definition ceil_log2 (p q : Z) : result Z :=
  fl <- floor_log2 p q ;;
  s <- lshift q fl ;;
  Ok (if p =? s then fl else fl + 1).

(** Lines 49-61: one pass through the loop body, from the remainder at the
    top of the iteration to the exponent appended and the new remainder. *)
Definition loop_body (rem : Qc) : result (Z * Qc) :=
  inv <- truediv 1%Qc rem ;;
  let p := numerator inv in
  let q := denominator inv in
  m <- ceil_log2 p q ;;
  s <- lshift 1 m ;;
  Ok (m, (rem * of_int s - 1)%Qc).

(** Lines 46-61: [for _ in range(k)] on the loop state [(rem, exps)]. *)
Fixpoint for_range (k : nat) (rem : Qc) (exps : list Z)
  : result (Qc * list Z) :=
  match k with
  | O => Ok (rem, exps)
  | S k' =>
      if Qc_eq_bool rem 0 then Ok (rem, exps)
      else
        '(m, rem') <- loop_body rem ;;
        for_range k' rem' (exps ++ [m])
  end.

Definition binary_exponents (x : Qc) (n : Z) : result (list Z) :=
  if n <? 1 then Raise ValueError_n_must_be_at_least_1
  else
    '(_, exps) <- for_range (Z.to_nat n) x [] ;;
    Ok exps.

(** ** [partial_binary_sum] *)

(** Lines 71-73, on the loop state [(total, cum)]. *)
Fixpoint sum_loop (exps : list Z) (total : Qc) (cum : Z) : result Qc :=
  match exps with
  | [] => Ok total
  | m :: rest =>
      let cum := cum + m in
      s <- lshift 1 cum ;;
      f <- Fraction 1 s ;;
      sum_loop rest (total + f)%Qc cum
  end.

Definition partial_binary_sum (exps : list Z) : result Qc :=
  sum_loop exps 0%Qc 0.

(** ** [exps_to_bitstring] *)

(** [c * k] for a one-character string [c]: empty when [k <= 0]. *)
Definition str_mul (c : ascii) (k : Z) : list ascii :=
  repeat c (Z.to_nat k).

(** Lines 82-84, on the list [bits]. *)
Fixpoint bits_loop (exps : list Z) (bits : list ascii) : list ascii :=
  match exps with
  | [] => bits
  | m :: rest => bits_loop rest ((bits ++ ["1"%char]) ++ str_mul "0"%char (m - 1))
  end.

Definition exps_to_bitstring (exps : list Z) : string :=
  string_of_list_ascii (bits_loop exps []).

(** ** Reading a bitstring after the binary point *)

Definition digit_value (c : ascii) : Q :=
  if Ascii.eqb c "1"%char then 1%Q else 0%Q.

(** The value of [0.<s>] in base 2. *)
Fixpoint binary_point_value (s : string) : Q :=
  match s with
  | EmptyString => 0%Q
  | String c s' => ((digit_value c + binary_point_value s') / 2)%Q
  end.

Definition frac (a : Z) (b : positive) : Qc := Q2Qc (a # b).

(** ** Specification-level notions *)

(** The value that an exponent list [m_1, ..., m_k] followed by a remainder
    [r] stands for:
    [2^-m_1 + 2^-(m_1+m_2) + ... + 2^-(m_1+...+m_k) * (1 + r)], written as
    the nested form [(1 + (1 + ... (1 + r) / 2^m_k ...) / 2^m_2) / 2^m_1]. *)
Fixpoint expansion_value (exps : list Z) (r : Qc) : Qc :=
  match exps with
  | [] => r
  | m :: rest => ((1 + expansion_value rest r) / of_int (2 ^ m))%Qc
  end.

(** The running totals [m_1, m_1+m_2, ...] that [partial_binary_sum] keeps
    in [cum]. *)
Fixpoint cumulative (cum : Z) (exps : list Z) : list Z :=
  match exps with
  | [] => []
  | m :: rest => (cum + m) :: cumulative (cum + m) rest
  end.

Definition strictly_increasing (l : list Z) : Prop := StronglySorted Z.lt l.

(** [m_1 + ... + m_k], the position of the last 1 bit. *)
Definition exponent_total (exps : list Z) : Z := fold_right Z.add 0 exps.

Definition all_at_least_1 (l : list Z) : Prop := Forall (fun m => 1 <= m) l.

(** ** [parse_x], after the text has been read *)

(** What lines 29-33 of [parse_x] produce: the fraction returned, or
    [ValueError("x must lie strictly between 0 and 1 after fractional
    part")]. *)
Inductive parse_outcome : Type :=
| Parsed (x : Qc)
| ValueError_x_must_lie_strictly_between_0_and_1.

(** [a < b] and [a >= b] on fractions. *)
Definition Qc_lt_bool (a b : Qc) : bool :=
  match (a ?= b)%Qc with
  | Lt => true
  | _ => false
  end.

Definition Qc_ge_bool (a b : Qc) : bool := negb (Qc_lt_bool a b).

(** Lines 29-30: [if x >= 1: x -= x.numerator // x.denominator]. *)
Definition drop_integer_part (x : Qc) : Qc :=
  if Qc_ge_bool x 1 then (x - of_int (numerator x / denominator x))%Qc
  else x.

(** Lines 29-33 of [parse_x], on the fraction [x] that lines 21-28 read
    from the text. *)
Definition parse_x_of_fraction (x : Qc) : parse_outcome :=
  let x := drop_integer_part x in
  if Qc_lt_bool 0 x && Qc_lt_bool x 1 then Parsed x
  else ValueError_x_must_lie_strictly_between_0_and_1.

(** The number of ['1'] characters of a string. *)
Definition count_ones (s : string) : nat :=
  count_occ ascii_dec (list_ascii_of_string s) "1"%char.

Definition binary_digit (c : ascii) : Prop := c = "0"%char \/ c = "1"%char.

(** The integer [K] with [expansion_value exps 0 = K / 2^(m_1+...+m_k)]:
    one bit set at each running total. *)
Fixpoint expansion_numerator (exps : list Z) : Z :=
  match exps with
  | [] => 0
  | m :: rest => 2 ^ exponent_total rest + expansion_numerator rest
  end.

(** * Properties *)

(** ** Integer bit-length arithmetic *)

Section IntegerLog.

Lemma lshift_nonneg (a k : Z) :
  0 <= k -> lshift a k = Ok (a * 2 ^ k).
Proof.
  intros Hk. unfold lshift.
  destruct (Z.ltb_spec k 0) as [Hneg | _]; [lia |].
  now rewrite Z.shiftl_mul_pow2.
Qed.

Lemma lshift_neg (a k : Z) :
  k < 0 -> lshift a k = Raise ValueError_negative_shift_count.
Proof.
  intros Hk. unfold lshift.
  destruct (Z.ltb_spec k 0); [reflexivity | lia].
Qed.

Lemma bit_length_positive (z : Z) :
  0 < z ->
  1 <= bit_length z /\ 2 ^ (bit_length z - 1) <= z < 2 ^ bit_length z.
Proof.
  intros Hz. unfold bit_length.
  destruct (Z.eqb_spec z 0) as [E | _]; [lia |].
  rewrite Z.abs_eq by lia.
  pose proof (Z.log2_nonneg z) as Hnn.
  pose proof (Z.log2_spec z Hz) as [Hlo Hhi].
  replace (Z.log2 z + 1 - 1) with (Z.log2 z) by lia.
  replace (Z.succ (Z.log2 z)) with (Z.log2 z + 1) in Hhi by lia.
  repeat split; lia.
Qed.

Lemma pow2_split (a b : Z) :
  0 <= a -> 0 <= b -> 2 ^ (a + b) = 2 ^ a * 2 ^ b.
Proof. intros; now apply Z.pow_add_r. Qed.

Lemma pow2_pos (a : Z) : 0 <= a -> 0 < 2 ^ a.
Proof. intros; now apply Z.pow_pos_nonneg. Qed.

(** The bit-length difference brackets [log2 (p/q)] within one. *)
Lemma candidate_bracket (p q : Z) :
  0 < q -> q <= p ->
  let c := bit_length p - bit_length q in
  0 <= c /\ p < q * 2 ^ (c + 1) /\ (1 <= c -> q * 2 ^ (c - 1) <= p).
Proof.
  intros Hq Hqp c.
  destruct (bit_length_positive p) as (Hp1 & Hplo & Hphi); [lia |].
  destruct (bit_length_positive q Hq) as (Hq1 & Hqlo & Hqhi).
  assert (Hc : 0 <= c).
  { subst c.
    destruct (Z.le_gt_cases (bit_length q) (bit_length p)) as [|Hlt]; [lia |].
    assert (2 ^ bit_length p <= 2 ^ (bit_length q - 1))
      by (apply Z.pow_le_mono_r; lia).
    lia. }
  split; [exact Hc |]. split.
  - replace (bit_length p) with ((bit_length q - 1) + (c + 1)) in Hphi
      by (subst c; lia).
    rewrite pow2_split in Hphi by lia.
    pose proof (pow2_pos (c + 1)). nia.
  - intros Hc1.
    replace (bit_length p - 1) with (bit_length q + (c - 1)) in Hplo
      by (subst c; lia).
    rewrite pow2_split in Hplo by lia.
    pose proof (pow2_pos (c - 1)). nia.
Qed.

(** [floor_log2] never shifts by a negative amount and returns
    [floor (log2 (p/q))]. *)
Lemma floor_log2_spec (p q : Z) :
  0 < q -> q <= p ->
  exists fl, floor_log2 p q = Ok fl /\
             0 <= fl /\ q * 2 ^ fl <= p < q * 2 ^ (fl + 1).
Proof.
  intros Hq Hqp.
  destruct (candidate_bracket p q Hq Hqp) as (Hc & Hhi & Hlo).
  unfold floor_log2. cbv zeta.
  set (c := bit_length p - bit_length q) in *.
  rewrite lshift_nonneg by exact Hc. cbn [bind].
  destruct (Z.ltb_spec p (q * 2 ^ c)) as [Hlt | Hge].
  - assert (1 <= c).
    { destruct (Z.eq_dec c 0) as [E | ]; [| lia].
      rewrite E in Hlt. cbn in Hlt. lia. }
    exists (c - 1). replace (c - 1 + 1) with c by lia.
    specialize (Hlo ltac:(lia)). repeat split; lia.
  - exists c. repeat split; lia.
Qed.

(** [ceil_log2] returns the least [m] with [p <= q * 2^m]; it is at least
    1 when [p > q]. *)
Lemma ceil_log2_spec (p q : Z) :
  0 < q -> q < p ->
  exists fl m,
    floor_log2 p q = Ok fl /\ ceil_log2 p q = Ok m /\
    0 <= fl /\ q * 2 ^ fl <= p < q * 2 ^ (fl + 1) /\
    1 <= m /\ q * 2 ^ (m - 1) < p <= q * 2 ^ m /\
    (m = fl <-> p = q * 2 ^ fl).
Proof.
  intros Hq Hqp.
  destruct (floor_log2_spec p q Hq) as (fl & Efl & Hfl & Hlo & Hhi); [lia |].
  unfold ceil_log2. rewrite Efl. cbn [bind].
  rewrite lshift_nonneg by exact Hfl. cbn [bind].
  destruct (Z.eqb_spec p (q * 2 ^ fl)) as [E | NE].
  - exists fl, fl.
    assert (1 <= fl).
    { destruct (Z.eq_dec fl 0) as [E0 | ]; [| lia].
      rewrite E0 in E. cbn in E. lia. }
    assert (E2 : 2 ^ fl = 2 ^ (fl - 1) * 2).
    { replace fl with ((fl - 1) + 1) at 1 by lia.
      now rewrite pow2_split by lia. }
    pose proof (pow2_pos (fl - 1)).
    repeat split; try lia; nia.
  - exists fl, (fl + 1). replace (fl + 1 - 1) with fl by lia.
    repeat split; try lia.
Qed.

End IntegerLog.

(** ** Canonical rationals seen as plain rationals *)

Section Fractions.

Local Open Scope Q_scope.

Lemma this_plus (x y : Qc) : this (x + y)%Qc == this x + this y.
Proof. apply Qred_correct. Qed.

Lemma this_mult (x y : Qc) : this (x * y)%Qc == this x * this y.
Proof. apply Qred_correct. Qed.

Lemma this_opp (x : Qc) : this (- x)%Qc == - this x.
Proof. apply Qred_correct. Qed.

Lemma this_minus (x y : Qc) : this (x - y)%Qc == this x - this y.
Proof.
  unfold Qcminus. rewrite this_plus, this_opp. reflexivity.
Qed.

Lemma this_inv (x : Qc) : this (/ x)%Qc == / this x.
Proof. apply Qred_correct. Qed.

Lemma this_div (x y : Qc) : this (x / y)%Qc == this x / this y.
Proof.
  unfold Qcdiv. rewrite this_mult, this_inv. reflexivity.
Qed.

Lemma this_of_int (z : Z) : this (of_int z) == inject_Z z.
Proof. apply Qred_correct. Qed.

Lemma this_zero : this 0%Qc = 0.
Proof. reflexivity. Qed.

Lemma this_one : this 1%Qc = 1.
Proof. reflexivity. Qed.

Lemma Qc_eq_bool_false (x y : Qc) : x <> y -> Qc_eq_bool x y = false.
Proof.
  intros NE. unfold Qc_eq_bool.
  destruct (Qc_eq_dec x y) as [E | _]; [contradiction | reflexivity].
Qed.

Lemma Qc_eq_bool_true (x : Qc) : Qc_eq_bool x x = true.
Proof.
  unfold Qc_eq_bool.
  destruct (Qc_eq_dec x x) as [_ | NE]; [reflexivity | now elim NE].
Qed.

Lemma Qc_eq_bool_spec (x y : Qc) : reflect (x = y) (Qc_eq_bool x y).
Proof.
  unfold Qc_eq_bool.
  destruct (Qc_eq_dec x y); constructor; assumption.
Qed.

(** A fraction read as numerator over denominator. *)
Lemma numerator_denominator (x : Qc) :
  this x = (numerator x # Z.to_pos (denominator x)).
Proof.
  unfold numerator, denominator. destruct (this x) as [a b]. reflexivity.
Qed.

(** Python keeps fractions in lowest terms. *)
Lemma lowest_terms (x : Qc) : Z.gcd (numerator x) (denominator x) = 1%Z.
Proof.
  unfold numerator, denominator.
  apply Qred_iff. apply canon.
Qed.

Lemma denominator_pos (x : Qc) : (0 < denominator x)%Z.
Proof. unfold denominator. lia. Qed.

Lemma Qle_num_den (a T : Z) (b : positive) :
  a # b <= inject_Z T <-> (a <= Z.pos b * T)%Z.
Proof. unfold Qle, inject_Z; cbn [Qnum Qden]; lia. Qed.

Lemma Qlt_num_den (a T : Z) (b : positive) :
  inject_Z T < a # b <-> (Z.pos b * T < a)%Z.
Proof. unfold Qlt, inject_Z; cbn [Qnum Qden]; lia. Qed.

Lemma Qge_num_den (a T : Z) (b : positive) :
  inject_Z T <= a # b <-> (Z.pos b * T <= a)%Z.
Proof. unfold Qle, inject_Z; cbn [Qnum Qden]; lia. Qed.

Lemma Qgt_num_den (a T : Z) (b : positive) :
  a # b < inject_Z T <-> (a < Z.pos b * T)%Z.
Proof. unfold Qlt, inject_Z; cbn [Qnum Qden]; lia. Qed.

(** The reciprocal of a remainder in (0,1) has [p > q > 0]. *)
Lemma reciprocal_gt_1 (r : Q) : 0 < r -> r < 1 -> 1 < / r.
Proof.
  intros H0 H1.
  assert (E : r * / r == 1) by (apply Qmult_inv_r; lra).
  pose proof (Qinv_lt_0_compat r H0) as Hi.
  destruct (Qlt_le_dec 1 (/ r)) as [|Hle]; [assumption | exfalso].
  assert (r * / r <= r * 1) by (apply Qmult_le_l; assumption).
  lra.
Qed.

(** The update of line 60 keeps the remainder in [0,1). *)
Lemma update_in_unit (r i T : Q) :
  0 < r -> r * i == 1 -> T < 2 * i -> i <= T ->
  0 <= r * T - 1 /\ r * T - 1 < 1.
Proof.
  intros Hr E Hlo Hhi.
  assert (r * i <= r * T) by (apply Qmult_le_l; assumption).
  assert (r * T < r * (2 * i)) by (apply Qmult_lt_l; assumption).
  split; [lra |].
  assert (r * (2 * i) == 2) by (rewrite Qmult_assoc, (Qmult_comm r 2),
                                 <- Qmult_assoc, E; reflexivity).
  lra.
Qed.

End Fractions.

(** ** One iteration of the expansion loop *)

Section LoopBody.

Lemma truediv_nonzero (a b : Qc) :
  b <> 0%Qc -> truediv a b = Ok (a / b)%Qc.
Proof.
  intros NE. unfold truediv. now rewrite Qc_eq_bool_false.
Qed.

Lemma truediv_zero (a : Qc) : truediv a 0%Qc = Raise ZeroDivisionError.
Proof. reflexivity. Qed.

Lemma positive_nonzero (rem : Qc) : (0 < rem)%Qc -> rem <> 0%Qc.
Proof.
  intros H E. subst rem. revert H. apply Qlt_irrefl.
Qed.

Lemma gt_1_num_den (x : Qc) :
  (1 < this x)%Q -> denominator x < numerator x.
Proof.
  unfold numerator, denominator, Qlt. destruct (this x) as [a b].
  cbn [Qnum Qden]. lia.
Qed.

(** Line 49-50: [p/q = 1/rem] with [p > q > 0]. *)
Lemma reciprocal_num_den (rem : Qc) :
  (0 < rem)%Qc -> (rem < 1)%Qc ->
  0 < denominator (1 / rem)%Qc < numerator (1 / rem)%Qc /\
  (this rem * this (1 / rem)%Qc == 1)%Q.
Proof.
  unfold Qclt. rewrite this_zero, this_one. intros H0 H1.
  assert (E : (this (1 / rem)%Qc == / this rem)%Q).
  { rewrite this_div, this_one. unfold Qdiv. apply Qmult_1_l. }
  pose proof (reciprocal_gt_1 _ H0 H1) as Hgt.
  rewrite <- E in Hgt.
  split.
  - split; [apply denominator_pos |].
    now apply gt_1_num_den.
  - rewrite E. apply Qmult_inv_r. lra.
Qed.

Lemma two_pow_succ (m : Z) : 1 <= m -> 2 ^ m = 2 * 2 ^ (m - 1).
Proof.
  intros Hm. replace m with (1 + (m - 1)) at 1 by lia.
  now rewrite pow2_split by lia.
Qed.

(** Lines 49-61 under the loop invariant [0 < rem < 1]: the body raises
    nothing, the exponent is at least 1 and is the least [k] with
    [rem * 2^k >= 1], and the new remainder is back in [0,1). *)
Lemma loop_body_spec (rem : Qc) :
  (0 < rem)%Qc -> (rem < 1)%Qc ->
  exists m,
    loop_body rem = Ok (m, (rem * of_int (2 ^ m) - 1)%Qc) /\
    ceil_log2 (numerator (1 / rem)%Qc) (denominator (1 / rem)%Qc) = Ok m /\
    1 <= m /\
    (0 <= rem * of_int (2 ^ m) - 1)%Qc /\
    (rem * of_int (2 ^ m) - 1 < 1)%Qc /\
    (forall k, 0 <= k < m -> (rem * of_int (2 ^ k) < 1)%Qc).
Proof.
  intros H0 H1.
  destruct (reciprocal_num_den rem H0 H1) as ((Hq & Hqp) & E).
  destruct (ceil_log2_spec _ _ Hq Hqp)
    as (fl & m & _ & Em & _ & _ & Hm & (Hlo & Hhi) & _).
  exists m.
  unfold loop_body.
  rewrite truediv_nonzero by now apply positive_nonzero.
  cbn [bind]. rewrite Em. cbn [bind].
  rewrite lshift_nonneg by lia. cbn [bind]. rewrite Z.mul_1_l.
  split; [reflexivity |]. split; [reflexivity |]. split; [exact Hm |].
  set (inv := (1 / rem)%Qc) in *.
  pose proof (numerator_denominator inv) as Ei.
  unfold denominator in Ei at 1. cbn [Z.to_pos] in Ei.
  unfold Qclt in H0. rewrite this_zero in H0.
  assert (Hbounds : (0 <= this rem * inject_Z (2 ^ m) - 1 /\
                     this rem * inject_Z (2 ^ m) - 1 < 1)%Q).
  { apply (update_in_unit (this rem) (this inv)); try assumption.
    - rewrite Ei.
      change (2 * (numerator inv # Qden (this inv)))%Q
        with ((2 * numerator inv) # Qden (this inv)).
      apply Qlt_num_den. rewrite (two_pow_succ m Hm).
      unfold denominator in Hlo. lia.
    - rewrite Ei. apply Qle_num_den. unfold denominator in Hhi. lia. }
  destruct Hbounds as [Hb0 Hb1].
  split; [| split].
  - unfold Qcle. rewrite this_minus, this_mult, this_of_int, this_zero, this_one.
    exact Hb0.
  - unfold Qclt. rewrite this_minus, this_mult, this_of_int, this_one.
    exact Hb1.
  - intros k Hk. unfold Qclt. rewrite this_mult, this_of_int, this_one.
    assert (Hki : (inject_Z (2 ^ k) < this inv)%Q).
    { rewrite Ei. apply Qlt_num_den.
      assert (2 ^ k <= 2 ^ (m - 1)) by (apply Z.pow_le_mono_r; lia).
      unfold denominator in Hlo. nia. }
    assert ((this rem * inject_Z (2 ^ k) < this rem * this inv)%Q)
      by (apply Qmult_lt_l; assumption).
    lra.
Qed.

End LoopBody.

(** ** The expansion loop *)

Section ExpansionLoop.

Lemma of_int_pow2_nonzero (m : Z) : 0 <= m -> of_int (2 ^ m) <> 0%Qc.
Proof.
  intros Hm E.
  assert (H : (this (of_int (2 ^ m)) == 0)%Q) by now rewrite E.
  rewrite this_of_int in H.
  unfold Qeq, inject_Z in H. cbn [Qnum Qden] in H.
  pose proof (pow2_pos m Hm). lia.
Qed.

Lemma of_int_mult (a b : Z) : of_int (a * b) = (of_int a * of_int b)%Qc.
Proof.
  apply Qc_is_canon.
  rewrite this_mult, !this_of_int, inject_Z_mult. reflexivity.
Qed.

Lemma of_int_pow2_add (a b : Z) :
  0 <= a -> 0 <= b ->
  of_int (2 ^ (a + b)) = (of_int (2 ^ a) * of_int (2 ^ b))%Qc.
Proof.
  intros Ha Hb. rewrite pow2_split by assumption. apply of_int_mult.
Qed.

(** Line 60 read backwards. *)
Lemma update_inverse (rem : Qc) (m : Z) :
  0 <= m ->
  rem = ((1 + (rem * of_int (2 ^ m) - 1)) / of_int (2 ^ m))%Qc.
Proof.
  intros Hm. pose proof (of_int_pow2_nonzero m Hm). now field.
Qed.

Lemma nonneg_nonzero_pos (rem : Qc) :
  (0 <= rem)%Qc -> rem <> 0%Qc -> (0 < rem)%Qc.
Proof.
  intros Hle NE.
  destruct (Qcle_lt_or_eq _ _ Hle) as [Hlt | E]; [exact Hlt |].
  now elim NE.
Qed.

(** Running the loop for [j + i] passes is running it for [j] and then for
    [i] more: once the remainder is 0 every later pass breaks at once. *)
Lemma for_range_add (j i : nat) :
  forall rem exps,
    for_range (j + i) rem exps =
    ('(rem', exps') <- for_range j rem exps ;; for_range i rem' exps').
Proof.
  induction j as [| j IH]; intros rem exps; [reflexivity |].
  cbn [Nat.add for_range].
  destruct (Qc_eq_bool_spec rem 0%Qc) as [E | NE].
  - cbn [bind]. destruct i as [| i]; [reflexivity |].
    cbn [for_range]. subst rem. now rewrite Qc_eq_bool_true.
  - destruct (loop_body rem) as [[m rem1] | e]; cbn [bind]; [apply IH | reflexivity].
Qed.

Lemma for_range_at_zero (k : nat) (exps : list Z) :
  for_range k 0%Qc exps = Ok (0%Qc, exps).
Proof. destruct k; reflexivity. Qed.

(** The loop under its invariant [0 <= rem < 1]: it raises nothing, emits
    at most [k] exponents, all at least 1, stops short of [k] only on a zero
    remainder, and the exponents emitted together with the final remainder
    account exactly for the remainder it started from. *)
Lemma for_range_spec (k : nat) :
  forall rem exps,
    (0 <= rem)%Qc -> (rem < 1)%Qc ->
    exists rem' suffix,
      for_range k rem exps = Ok (rem', exps ++ suffix) /\
      (0 <= rem')%Qc /\ (rem' < 1)%Qc /\
      (List.length suffix <= k)%nat /\
      all_at_least_1 suffix /\
      ((List.length suffix < k)%nat -> rem' = 0%Qc) /\
      rem = expansion_value suffix rem'.
Proof.
  induction k as [| k IH]; intros rem exps H0 H1.
  - exists rem, []. rewrite app_nil_r. cbn.
    repeat split; auto; try lia. constructor.
  - cbn [for_range].
    destruct (Qc_eq_bool_spec rem 0%Qc) as [E | NE].
    + exists rem, []. rewrite app_nil_r. cbn.
      repeat split; auto; try lia. constructor.
    + pose proof (nonneg_nonzero_pos rem H0 NE) as Hpos.
      destruct (loop_body_spec rem Hpos H1)
        as (m & Eb & _ & Hm & Hr0 & Hr1 & _).
      rewrite Eb. cbn [bind].
      destruct (IH _ (exps ++ [m]) Hr0 Hr1)
        as (rem' & suffix & Ef & H0' & H1' & Hlen & Hall & Hshort & Hval).
      exists rem', (m :: suffix).
      rewrite <- app_assoc in Ef. cbn [app] in Ef.
      split; [exact Ef |]. split; [exact H0' |]. split; [exact H1' |].
      split; [cbn; lia |]. split; [constructor; assumption |].
      split; [intros Hl; apply Hshort; cbn in Hl; lia |].
      cbn [expansion_value]. rewrite <- Hval.
      apply update_inverse. lia.
Qed.

(** What the loop can raise, whatever the input: only a negative shift
    count; the zero test of line 47 guards the division of line 49. *)
Lemma loop_body_raises (rem : Qc) (e : PyError) :
  rem <> 0%Qc -> loop_body rem = Raise e ->
  e = ValueError_negative_shift_count.
Proof.
  intros NE. unfold loop_body, ceil_log2, floor_log2, lshift.
  rewrite truediv_nonzero by exact NE. cbn [bind].
  repeat match goal with
         | |- context [if ?b then _ else _] => destruct b; cbn [bind]
         end; congruence.
Qed.

Lemma for_range_raises (k : nat) :
  forall rem exps e,
    for_range k rem exps = Raise e -> e = ValueError_negative_shift_count.
Proof.
  induction k as [| k IH]; intros rem exps e; cbn [for_range]; [discriminate |].
  destruct (Qc_eq_bool_spec rem 0%Qc) as [E | NE]; [discriminate |].
  destruct (loop_body rem) as [[m rem1] | e'] eqn:Eb; cbn [bind].
  - apply IH.
  - intros [= <-]. now apply (loop_body_raises rem).
Qed.

(** The loop on any input that it completes on: the exponent list only
    grows, by at most [k] elements, and by fewer than [k] exactly when
    some earlier pass ended on a zero remainder. *)
Lemma for_range_length (k : nat) :
  forall rem exps rem' exps',
    for_range k rem exps = Ok (rem', exps') ->
    exists suffix,
      exps' = exps ++ suffix /\ (List.length suffix <= k)%nat /\
      ((List.length suffix < k)%nat ->
       exists j e, (j < k)%nat /\ for_range j rem exps = Ok (0%Qc, e)).
Proof.
  induction k as [| k IH]; intros rem exps rem' exps'; cbn [for_range].
  - intros [= <- <-]. exists []. rewrite app_nil_r.
    repeat split; cbn; auto. lia.
  - destruct (Qc_eq_bool_spec rem 0%Qc) as [E | NE].
    + intros [= <- <-]. exists []. rewrite app_nil_r.
      repeat split; cbn; auto; try lia.
      intros _. exists O, exps. subst rem. split; [lia | reflexivity].
    + destruct (loop_body rem) as [[m rem1] | e] eqn:Eb; cbn [bind]; [| discriminate].
      intros Ef. destruct (IH _ _ _ _ Ef) as (suffix & -> & Hlen & Hshort).
      exists (m :: suffix). rewrite <- app_assoc. cbn [app List.length].
      split; [reflexivity |]. split; [lia |].
      intros Hl. destruct Hshort as (j & e & Hj & Ej); [lia |].
      exists (S j), e. split; [lia |].
      cbn [for_range]. rewrite Qc_eq_bool_false by exact NE.
      rewrite Eb. cbn [bind]. exact Ej.
Qed.

Lemma for_range_zero_before (k j : nat) (rem : Qc) (exps e : list Z) :
  (j < k)%nat -> for_range j rem exps = Ok (0%Qc, e) ->
  for_range k rem exps = Ok (0%Qc, e).
Proof.
  intros Hj Ej. replace k with (j + (k - j))%nat by lia.
  rewrite for_range_add, Ej. cbn [bind]. apply for_range_at_zero.
Qed.

End ExpansionLoop.

(** ** The partial sum *)

Section PartialSum.

Lemma Fraction_one_pow2 (c : Z) :
  0 <= c -> Fraction 1 (1 * 2 ^ c) = Ok (1 / of_int (2 ^ c))%Qc.
Proof.
  intros Hc. unfold Fraction. rewrite Z.mul_1_l.
  pose proof (pow2_pos c Hc) as Hpos.
  destruct (Z.eqb_spec (2 ^ c) 0) as [E | _]; [lia |].
  f_equal. apply Qc_is_canon.
  rewrite this_div, this_of_int, this_one.
  change (this (Q2Qc (inject_Z 1 / inject_Z (2 ^ c))))
    with (Qred (inject_Z 1 / inject_Z (2 ^ c))).
  rewrite Qred_correct. reflexivity.
Qed.

(** Lines 70-74: the loop adds to [total] the value of the remaining
    exponents scaled by [2^-cum]; no shift count is negative. *)
Lemma sum_loop_spec (exps : list Z) :
  forall total cum,
    0 <= cum -> all_at_least_1 exps ->
    sum_loop exps total cum =
    Ok (total + expansion_value exps 0 / of_int (2 ^ cum))%Qc.
Proof.
  induction exps as [| m rest IH]; intros total cum Hc Hall.
  - cbn. f_equal. pose proof (of_int_pow2_nonzero cum Hc). now field.
  - inversion Hall as [| ? ? Hm Hrest]; subst.
    cbn [sum_loop expansion_value].
    rewrite lshift_nonneg by lia. cbn [bind].
    rewrite Fraction_one_pow2 by lia. cbn [bind].
    rewrite IH by (assumption || lia).
    f_equal. rewrite of_int_pow2_add by lia.
    pose proof (of_int_pow2_nonzero cum Hc).
    pose proof (of_int_pow2_nonzero m ltac:(lia)).
    field. split; assumption.
Qed.

Lemma of_int_pow2_0 : of_int (2 ^ 0) = 1%Qc.
Proof. apply Qc_is_canon. reflexivity. Qed.

Lemma partial_binary_sum_value (exps : list Z) :
  all_at_least_1 exps ->
  partial_binary_sum exps = Ok (expansion_value exps 0%Qc).
Proof.
  intros Hall. unfold partial_binary_sum.
  rewrite sum_loop_spec by (assumption || lia).
  f_equal. rewrite of_int_pow2_0. field. apply Q_apart_0_1.
Qed.

Lemma inject_pow2_ge_2 (m : Z) : 1 <= m -> (2 <= inject_Z (2 ^ m))%Q.
Proof.
  intros Hm. change 2%Q with (inject_Z 2). rewrite <- Zle_Qle.
  change 2 with (2 ^ 1) at 1. apply Z.pow_le_mono_r; lia.
Qed.

(** A list of exponents, all at least 1, followed by a remainder in
    [0,1) stands for a value in [0,1); the value is positive as soon as
    one exponent is present. *)
Lemma expansion_value_bounds (exps : list Z) (r : Qc) :
  all_at_least_1 exps -> (0 <= r)%Qc -> (r < 1)%Qc ->
  (0 <= expansion_value exps r)%Qc /\ (expansion_value exps r < 1)%Qc /\
  (exps <> [] -> (0 < expansion_value exps r)%Qc).
Proof.
  intros Hall Hr0 Hr1.
  induction exps as [| m rest IH].
  - cbn. repeat split; auto. intros NE. now elim NE.
  - inversion Hall as [| ? ? Hm Hrest]; subst.
    destruct (IH Hrest) as (Hu0 & Hu1 & _).
    cbn [expansion_value].
    set (u := expansion_value rest r) in *.
    pose proof (inject_pow2_ge_2 m Hm) as HT.
    unfold Qcle, Qclt in *.
    rewrite this_zero in *. rewrite this_one in *.
    assert (Hpos : (0 < this ((1 + u) / of_int (2 ^ m))%Qc)%Q).
    { rewrite this_div, this_plus, this_one, this_of_int.
      apply Qlt_shift_div_l; lra. }
    split; [apply Qlt_le_weak; exact Hpos |].
    split; [| intros _; exact Hpos].
    rewrite this_div, this_plus, this_one, this_of_int.
    apply Qlt_shift_div_r; lra.
Qed.

End PartialSum.

(** ** Cumulative exponents and the rendered string *)

Section Rendering.

Lemma cumulative_above (exps : list Z) :
  all_at_least_1 exps ->
  forall cum, Forall (fun c => cum < c) (cumulative cum exps).
Proof.
  induction 1 as [| m rest Hm Hrest IH]; intros cum; cbn [cumulative].
  - constructor.
  - constructor; [lia |].
    eapply Forall_impl; [| apply (IH (cum + m))].
    cbn. intros c Hc. lia.
Qed.

Lemma cumulative_increasing (exps : list Z) :
  all_at_least_1 exps ->
  forall cum, strictly_increasing (cumulative cum exps).
Proof.
  induction 1 as [| m rest Hm Hrest IH]; intros cum; cbn [cumulative].
  - constructor.
  - constructor; [apply IH |].
    apply cumulative_above. exact Hrest.
Qed.

Lemma string_of_list_ascii_length (l : list ascii) :
  String.length (string_of_list_ascii l) = List.length l.
Proof.
  induction l as [| c l IH]; cbn; [reflexivity | now rewrite IH].
Qed.

(** With every exponent at least 1 no repeat count of line 84 is
    negative: each exponent [m] contributes exactly [m] characters. *)
Lemma bits_loop_length (exps : list Z) :
  all_at_least_1 exps ->
  forall bits,
    Z.of_nat (List.length (bits_loop exps bits)) =
    Z.of_nat (List.length bits) + exponent_total exps.
Proof.
  induction 1 as [| m rest Hm Hrest IH]; intros bits;
    cbn [bits_loop exponent_total fold_right].
  - lia.
  - rewrite IH. fold (exponent_total rest).
    unfold str_mul. rewrite !length_app, repeat_length. cbn [List.length].
    lia.
Qed.

Lemma Qpower2_inject (k : Z) : 0 <= k -> (2 ^ k == inject_Z (2 ^ k))%Q.
Proof.
  intros Hk. rewrite Zpower_Qpower by exact Hk. reflexivity.
Qed.

End Rendering.

(** ** The expansion as a whole *)

Section Expansion.

(** Deciding an equation between an outcome and a fraction by computing
    numerators and denominators. *)
Lemma Ok_fraction_eq (r : result Qc) (y : Qc) :
  match r with
  | Ok s => Qeq_bool (this s) (this y)
  | Raise _ => false
  end = true ->
  r = Ok y.
Proof.
  destruct r as [s | e]; [| discriminate].
  intros H. f_equal. apply Qc_is_canon. now apply Qeq_bool_eq.
Qed.

Lemma Ok_state_eq (r : result (Qc * list Z)) (rem : Qc) (exps : list Z) :
  match r with
  | Ok (s, e) =>
      Qeq_bool (this s) (this rem) &&
      (if list_eq_dec Z.eq_dec e exps then true else false)
  | Raise _ => false
  end = true ->
  r = Ok (rem, exps).
Proof.
  destruct r as [[s e] | err]; [| discriminate].
  intros H. apply andb_prop in H as [Hs He].
  destruct (list_eq_dec Z.eq_dec e exps) as [-> | _]; [| discriminate].
  f_equal. f_equal. apply Qc_is_canon. now apply Qeq_bool_eq.
Qed.

Lemma binary_exponents_for_range (x : Qc) (n : Z) :
  1 <= n ->
  binary_exponents x n =
  ('(_, exps) <- for_range (Z.to_nat n) x [] ;; Ok exps).
Proof.
  intros Hn. unfold binary_exponents.
  destruct (Z.ltb_spec n 1); [lia | reflexivity].
Qed.

(** [binary_exponents] on its documented domain. *)
Lemma binary_exponents_spec (x : Qc) (n : Z) :
  (0 < x)%Qc -> (x < 1)%Qc -> 1 <= n ->
  exists rem exps,
    for_range (Z.to_nat n) x [] = Ok (rem, exps) /\
    binary_exponents x n = Ok exps /\
    (0 <= rem)%Qc /\ (rem < 1)%Qc /\
    Z.of_nat (List.length exps) <= n /\
    all_at_least_1 exps /\
    (Z.of_nat (List.length exps) < n -> rem = 0%Qc) /\
    x = expansion_value exps rem.
Proof.
  intros H0 H1 Hn.
  destruct (for_range_spec (Z.to_nat n) x [] (Qclt_le_weak _ _ H0) H1)
    as (rem & exps & Ef & Hr0 & Hr1 & Hlen & Hall & Hshort & Hval).
  cbn [app] in Ef.
  exists rem, exps.
  rewrite binary_exponents_for_range by exact Hn. rewrite Ef. cbn [bind].
  repeat split; try assumption; try lia.
  intros Hl. apply Hshort. lia.
Qed.

End Expansion.

(** * The claims *)

(** C1, evaluated on the code at [x = 5/8], [n = 3]: the expansion is
    [[1; 2]], it is rendered as ["110"], and ["110"] read after the binary
    point is [3/4], whereas the partial sum of the same exponents is [5/8];
    the two differ. *)
Theorem bit_alignment_fails_at_five_eighths :
  binary_exponents (frac 5 8) 3 = Ok [1; 2] /\
  exps_to_bitstring [1; 2] = "110"%string /\
  (binary_point_value (exps_to_bitstring [1; 2]%Z) == 3 # 4)%Q /\
  partial_binary_sum [1; 2] = Ok (frac 5 8) /\
  ~ (binary_point_value (exps_to_bitstring [1; 2]%Z) == this (frac 5 8))%Q.
Proof.
  split; [reflexivity |]. split; [reflexivity |]. split; [reflexivity |].
  split; [apply Ok_fraction_eq; reflexivity |].
  intros H. vm_compute in H. discriminate H.
Qed.

(** C2 as stated fails: at [x = 1/3], [n = 2], inside the documented domain,
    the expansion is [[2; 2]], which is not strictly increasing. *)
Lemma exponents_not_strictly_increasing :
  (0 < frac 1 3)%Qc /\ (frac 1 3 < 1)%Qc /\ 1 <= 2 /\
  binary_exponents (frac 1 3) 2 = Ok [2; 2] /\
  ~ strictly_increasing [2; 2].
Proof.
  split; [reflexivity |]. split; [reflexivity |]. split; [lia |].
  split; [reflexivity |].
  intros H. inversion H as [| ? ? _ Hall]; subst.
  inversion Hall as [| ? ? Hlt _]; subst. lia.
Qed.

(** C2, amended: for every rational [x] with [0 < x < 1] and every [n >= 1],
    [binary_exponents] returns a sequence whose elements are all at least 1,
    so that the cumulative exponents [m_1, m_1+m_2, ...] are strictly
    increasing. *)
Theorem exponents_positive_cumulative_increasing (x : Qc) (n : Z) :
  (0 < x)%Qc -> (x < 1)%Qc -> 1 <= n ->
  exists exps,
    binary_exponents x n = Ok exps /\
    all_at_least_1 exps /\
    strictly_increasing (cumulative 0 exps).
Proof.
  intros H0 H1 Hn.
  destruct (binary_exponents_spec x n H0 H1 Hn)
    as (rem & exps & _ & Eb & _ & _ & _ & Hall & _).
  exists exps. split; [exact Eb |]. split; [exact Hall |].
  now apply cumulative_increasing.
Qed.

Lemma exponents_positive_cumulative_increasing_witness :
  exists exps,
    binary_exponents (frac 1 3) 4 = Ok exps /\
    all_at_least_1 exps /\
    strictly_increasing (cumulative 0 exps).
Proof.
  apply (exponents_positive_cumulative_increasing (frac 1 3) 4);
    [reflexivity | reflexivity | lia].
Defined.

(** C3 as stated fails: at [x = 5/8], [n = 3] the code does not return
    [[1; 3]], and the string rendered from what it returns is not ["101"]. *)
Lemma scenario_five_eighths_as_stated_fails :
  binary_exponents (frac 5 8) 3 <> Ok [1; 3] /\
  (forall exps, binary_exponents (frac 5 8) 3 = Ok exps ->
                exps_to_bitstring exps <> "101"%string).
Proof.
  split.
  - intros H. vm_compute in H. discriminate H.
  - intros exps H. vm_compute in H. injection H as <-.
    intros E. vm_compute in E. discriminate E.
Qed.

(** C3, amended: for [x = 5/8] and [n = 3], [binary_exponents] returns
    [[1; 2]], [partial_binary_sum] of that sequence returns exactly [5/8],
    and the expansion terminates early: the remainder is 0 after 2 passes
    and the returned length 2 is less than [n]. *)
Theorem scenario_five_eighths :
  binary_exponents (frac 5 8) 3 = Ok [1; 2] /\
  partial_binary_sum [1; 2] = Ok (frac 5 8) /\
  for_range 2 (frac 5 8) [] = Ok (0%Qc, [1; 2]) /\
  (List.length [1; 2] < 3)%nat.
Proof.
  split; [reflexivity |].
  split; [apply Ok_fraction_eq; reflexivity |].
  split; [apply Ok_state_eq; reflexivity |].
  cbn. lia.
Qed.

(** C4 as stated fails: [x = 0] and [x = 1] lie outside the open interval
    (0,1), yet with [n = 1] the code raises nothing and returns a list. *)
Lemma no_error_outside_unit_interval :
  ~ (0 < 0)%Qc /\ ~ (1 < 1)%Qc /\
  binary_exponents 0%Qc 1 = Ok [] /\
  binary_exponents 1%Qc 1 = Ok [0].
Proof.
  split; [apply Qlt_irrefl |]. split; [apply Qlt_irrefl |].
  split; reflexivity.
Qed.

(** C4, amended: [binary_exponents] raises its precondition error
    ("n must be at least 1") exactly when [n < 1], whatever [x] is; it does
    not check that [x] lies in (0,1). *)
Theorem invalid_bound_iff (x : Qc) (n : Z) :
  binary_exponents x n = Raise ValueError_n_must_be_at_least_1 <-> n < 1.
Proof.
  unfold binary_exponents.
  destruct (Z.ltb_spec n 1) as [Hlt | Hge].
  - split; [intros _; exact Hlt | reflexivity].
  - split; [| lia].
    destruct (for_range (Z.to_nat n) x []) as [[rem exps] | e] eqn:Ef;
      cbn [bind]; [discriminate |].
    apply for_range_raises in Ef. subst e. discriminate.
Qed.

(** C5: for every rational [x] with [0 < x < 1] and every [n >= 1] such
    that the expansion stops before reaching [n] terms (the remainder
    reached 0), [partial_binary_sum (binary_exponents x n)] is exactly
    [x]. *)
Theorem round_trip_exact (x : Qc) (n : Z) (exps : list Z) :
  (0 < x)%Qc -> (x < 1)%Qc -> 1 <= n ->
  binary_exponents x n = Ok exps ->
  Z.of_nat (List.length exps) < n ->
  partial_binary_sum exps = Ok x.
Proof.
  intros H0 H1 Hn Eb Hlen.
  destruct (binary_exponents_spec x n H0 H1 Hn)
    as (rem & exps' & _ & Eb' & _ & _ & _ & Hall & Hshort & Hval).
  rewrite Eb in Eb'. injection Eb' as <-.
  rewrite (Hshort Hlen) in Hval.
  rewrite partial_binary_sum_value by exact Hall.
  now rewrite <- Hval.
Qed.

Lemma round_trip_exact_witness :
  partial_binary_sum [1; 2] = Ok (frac 5 8).
Proof.
  apply (round_trip_exact (frac 5 8) 3 [1; 2]);
    [reflexivity | reflexivity | lia | reflexivity | cbn; lia].
Defined.

(** C6: for every rational [x] with [0 < x < 1] and every pass [j] below the
    bound [n], the loop reaches the top of pass [j + 1] without raising,
    with a remainder in [0,1).  If that remainder is 0, no further exponent
    is emitted: the exponents so far are what [binary_exponents] returns.
    If it is not 0, the pass emits an exponent [m] and the updated remainder
    [rem * 2^m - 1] again lies in [0,1). *)
Theorem remainder_invariant (x : Qc) (n : Z) (j : nat) :
  (0 < x)%Qc -> (x < 1)%Qc -> Z.of_nat j < n ->
  exists rem exps,
    for_range j x [] = Ok (rem, exps) /\
    (0 <= rem)%Qc /\ (rem < 1)%Qc /\
    (rem = 0%Qc -> binary_exponents x n = Ok exps) /\
    (rem <> 0%Qc ->
     exists m,
       loop_body rem = Ok (m, (rem * of_int (2 ^ m) - 1)%Qc) /\
       for_range (S j) x [] =
         Ok ((rem * of_int (2 ^ m) - 1)%Qc, exps ++ [m]) /\
       (0 <= rem * of_int (2 ^ m) - 1)%Qc /\
       (rem * of_int (2 ^ m) - 1 < 1)%Qc).
Proof.
  intros H0 H1 Hj.
  destruct (for_range_spec j x [] (Qclt_le_weak _ _ H0) H1)
    as (rem & exps & Ef & Hr0 & Hr1 & _).
  cbn [app] in Ef.
  exists rem, exps.
  split; [exact Ef |]. split; [exact Hr0 |]. split; [exact Hr1 |]. split.
  - intros E. subst rem.
    rewrite binary_exponents_for_range by lia.
    rewrite (for_range_zero_before (Z.to_nat n) j x [] exps) by (lia || exact Ef).
    reflexivity.
  - intros NE.
    destruct (loop_body_spec rem (nonneg_nonzero_pos rem Hr0 NE) Hr1)
      as (m & Eb & _ & _ & Hn0 & Hn1 & _).
    exists m. split; [exact Eb |]. split; [| split; assumption].
    rewrite <- Nat.add_1_r, for_range_add, Ef. cbn [bind for_range].
    rewrite Qc_eq_bool_false by exact NE.
    rewrite Eb. reflexivity.
Qed.

Lemma remainder_invariant_witness :
  exists rem exps,
    for_range 1 (frac 5 8) [] = Ok (rem, exps) /\
    (0 <= rem)%Qc /\ (rem < 1)%Qc /\
    (rem = 0%Qc -> binary_exponents (frac 5 8) 3 = Ok exps) /\
    (rem <> 0%Qc ->
     exists m,
       loop_body rem = Ok (m, (rem * of_int (2 ^ m) - 1)%Qc) /\
       for_range 2 (frac 5 8) [] =
         Ok ((rem * of_int (2 ^ m) - 1)%Qc, exps ++ [m]) /\
       (0 <= rem * of_int (2 ^ m) - 1)%Qc /\
       (rem * of_int (2 ^ m) - 1 < 1)%Qc).
Proof.
  apply (remainder_invariant (frac 5 8) 3 1);
    [reflexivity | reflexivity | cbn; lia].
Defined.

(** C7: in a pass whose remainder [r] satisfies [0 < r < 1], with
    [1/r = p/q] in lowest terms, the bit-length computation returns
    [fl] with [2^fl <= p/q < 2^(fl+1)], that is [floor (log2 (p/q))], and the
    exponent [m] emitted satisfies [2^(m-1) < p/q <= 2^m], that is
    [ceil (log2 (p/q))]: [m] is the least integer with [2^m * r >= 1].  Only
    integer bit lengths, shifts and comparisons are used. *)
Theorem exponent_is_ceil_log2 (r : Qc) :
  (0 < r)%Qc -> (r < 1)%Qc ->
  let inv := (1 / r)%Qc in
  let p := numerator inv in
  let q := denominator inv in
  this inv = (p # Z.to_pos q) /\ Z.gcd p q = 1 /\ (this inv == / this r)%Q /\
  exists fl m,
    floor_log2 p q = Ok fl /\
    (2 ^ fl <= this inv)%Q /\ (this inv < 2 ^ (fl + 1)%Z)%Q /\
    loop_body r = Ok (m, (r * of_int (2 ^ m) - 1)%Qc) /\
    (2 ^ (m - 1)%Z < this inv)%Q /\ (this inv <= 2 ^ m)%Q /\
    (1 <= 2 ^ m * this r)%Q /\
    (forall k : Z, (1 <= 2 ^ k * this r)%Q -> m <= k).
Proof.
  intros H0 H1 inv p q.
  destruct (reciprocal_num_den r H0 H1) as ((Hq & Hqp) & E).
  fold inv in Hq, Hqp, E. fold p in Hqp. fold q in Hq, Hqp.
  pose proof (numerator_denominator inv) as Ei. fold p q in Ei.
  split; [exact Ei |]. split; [apply lowest_terms |]. split.
  { subst inv. rewrite this_div, this_one. unfold Qdiv. apply Qmult_1_l. }
  destruct (ceil_log2_spec p q Hq Hqp)
    as (fl & m & Efl & Em & Hfl & (Hlo & Hhi) & Hm & (Hmlo & Hmhi) & _).
  destruct (loop_body_spec r H0 H1) as (m' & Eb & Em' & _ & Hr0 & _ & Hmin).
  fold inv in Em'. fold p q in Em'.
  rewrite Em in Em'. injection Em' as <-.
  assert (Hqpos : Z.pos (Z.to_pos q) = q) by (apply Z2Pos.id; exact Hq).
  exists fl, m.
  split; [exact Efl |].
  split; [rewrite Qpower2_inject by lia; rewrite Ei;
          apply Qge_num_den; rewrite Hqpos; lia |].
  split; [rewrite Qpower2_inject by lia; rewrite Ei;
          apply Qgt_num_den; rewrite Hqpos; lia |].
  split; [exact Eb |].
  split; [rewrite Qpower2_inject by lia; rewrite Ei;
          apply Qlt_num_den; rewrite Hqpos; lia |].
  split; [rewrite Qpower2_inject by lia; rewrite Ei;
          apply Qle_num_den; rewrite Hqpos; lia |].
  assert (Hrpos : (0 < this r)%Q) by exact H0.
  split.
  - unfold Qcle in Hr0.
    rewrite this_minus, this_mult, this_of_int, this_zero, this_one in Hr0.
    rewrite Qpower2_inject by lia. lra.
  - intros k Hk.
    destruct (Z.lt_ge_cases k m) as [Hlt | Hge]; [exfalso | exact Hge].
    assert (Hpow : (2 ^ k <= 2 ^ (m - 1)%Z)%Q)
      by (apply Qpower_le_compat_l; [lia | lra]).
    specialize (Hmin (m - 1) ltac:(lia)). unfold Qclt in Hmin.
    rewrite this_mult, this_of_int, this_one in Hmin.
    rewrite <- Qpower2_inject in Hmin by lia.
    assert ((2 ^ k * this r <= 2 ^ (m - 1)%Z * this r)%Q)
      by (apply Qmult_le_compat_r; [exact Hpow | lra]).
    lra.
Qed.

Lemma exponent_is_ceil_log2_witness :
  let inv := (1 / frac 5 8)%Qc in
  let p := numerator inv in
  let q := denominator inv in
  this inv = (p # Z.to_pos q) /\ Z.gcd p q = 1 /\
  (this inv == / this (frac 5 8))%Q /\
  exists fl m,
    floor_log2 p q = Ok fl /\
    (2 ^ fl <= this inv)%Q /\ (this inv < 2 ^ (fl + 1)%Z)%Q /\
    loop_body (frac 5 8) = Ok (m, (frac 5 8 * of_int (2 ^ m) - 1)%Qc) /\
    (2 ^ (m - 1)%Z < this inv)%Q /\ (this inv <= 2 ^ m)%Q /\
    (1 <= 2 ^ m * this (frac 5 8))%Q /\
    (forall k : Z, (1 <= 2 ^ k * this (frac 5 8))%Q -> m <= k).
Proof.
  apply (exponent_is_ceil_log2 (frac 5 8)); reflexivity.
Defined.

(** C8: for every [x] and every [n >= 1], [binary_exponents] makes at most
    [n] passes through its loop (the loop runs over [range(n)] and each pass
    appends one exponent), so a returned sequence has length at most [n];
    its length is strictly less than [n] exactly when the remainder was 0
    at the top of some pass before the bound.  On an [x] for which nothing
    is returned the only exception is a negative shift count. *)
Theorem truncation_bound (x : Qc) (n : Z) :
  1 <= n ->
  match binary_exponents x n with
  | Ok exps =>
      Z.of_nat (List.length exps) <= n /\
      (Z.of_nat (List.length exps) < n <->
       exists j, Z.of_nat j < n /\ for_range j x [] = Ok (0%Qc, exps))
  | Raise e => e = ValueError_negative_shift_count
  end.
Proof.
  intros Hn. rewrite binary_exponents_for_range by exact Hn.
  destruct (for_range (Z.to_nat n) x []) as [[rem exps] | e] eqn:Ef;
    cbn [bind]; [| now apply for_range_raises in Ef].
  destruct (for_range_length _ _ _ _ _ Ef) as (suffix & E & Hlen & Hshort).
  cbn [app] in E. subst suffix.
  split; [lia |]. split.
  - intros Hl. destruct Hshort as (j & e & Hj & Ej); [lia |].
    exists j. split; [lia |].
    pose proof (for_range_zero_before _ _ _ _ _ Hj Ej) as Ek.
    rewrite Ef in Ek. injection Ek as _ ->. exact Ej.
  - intros (j & Hj & Ej).
    destruct (for_range_length _ _ _ _ _ Ej) as (suffix & E & Hlenj & _).
    cbn [app] in E. subst suffix. lia.
Qed.

Lemma truncation_bound_witness :
  1 <= 3 /\
  match binary_exponents (frac 5 8) 3 with
  | Ok exps =>
      Z.of_nat (List.length exps) <= 3 /\
      (Z.of_nat (List.length exps) < 3 <->
       exists j, Z.of_nat j < 3 /\
                 for_range j (frac 5 8) [] = Ok (0%Qc, exps))
  | Raise e => e = ValueError_negative_shift_count
  end.
Proof.
  split; [lia | apply (truncation_bound (frac 5 8) 3); lia].
Defined.

(** C9: for every rational [x] with [0 < x < 1] and every [n >= 1], the
    three core functions complete without raising: [binary_exponents]
    returns a list (no division by zero, no negative shift count),
    [partial_binary_sum] of that list returns a fraction (no negative shift
    count), and [exps_to_bitstring] of that list has exactly
    [m_1 + ... + m_k] characters (no repeat count was negative). *)
Theorem total_under_preconditions (x : Qc) (n : Z) :
  (0 < x)%Qc -> (x < 1)%Qc -> 1 <= n ->
  exists exps s,
    binary_exponents x n = Ok exps /\
    partial_binary_sum exps = Ok s /\
    Z.of_nat (String.length (exps_to_bitstring exps)) = exponent_total exps.
Proof.
  intros H0 H1 Hn.
  destruct (binary_exponents_spec x n H0 H1 Hn)
    as (rem & exps & _ & Eb & _ & _ & _ & Hall & _).
  exists exps, (expansion_value exps 0%Qc).
  split; [exact Eb |]. split; [now apply partial_binary_sum_value |].
  unfold exps_to_bitstring.
  rewrite string_of_list_ascii_length, bits_loop_length by exact Hall.
  cbn [List.length]. lia.
Qed.

Lemma total_under_preconditions_witness :
  exists exps s,
    binary_exponents (frac 1 3) 4 = Ok exps /\
    partial_binary_sum exps = Ok s /\
    Z.of_nat (String.length (exps_to_bitstring exps)) = exponent_total exps.
Proof.
  apply (total_under_preconditions (frac 1 3) 4);
    [reflexivity | reflexivity | lia].
Defined.

(** C10: for every finite list of positive integers, whether or not it
    comes from [binary_exponents], [partial_binary_sum] returns a rational
    in [0,1), and it returns 0 if and only if the list is empty. *)
Theorem partial_binary_sum_unit_interval (exps : list Z) :
  all_at_least_1 exps ->
  exists s,
    partial_binary_sum exps = Ok s /\
    (0 <= s)%Qc /\ (s < 1)%Qc /\
    (s = 0%Qc <-> exps = []).
Proof.
  intros Hall.
  exists (expansion_value exps 0%Qc).
  split; [now apply partial_binary_sum_value |].
  destruct (expansion_value_bounds exps 0%Qc Hall)
    as (Hs0 & Hs1 & Hpos); [apply Qle_refl | reflexivity |].
  split; [exact Hs0 |]. split; [exact Hs1 |]. split.
  - intros E. destruct exps as [| m rest]; [reflexivity |].
    assert (Hlt : (0 < expansion_value (m :: rest) 0)%Qc)
      by (apply Hpos; discriminate).
    rewrite E in Hlt. now apply Qlt_irrefl in Hlt.
  - intros ->. reflexivity.
Qed.

Lemma partial_binary_sum_unit_interval_witness :
  exists s,
    partial_binary_sum [3; 1; 1] = Ok s /\
    (0 <= s)%Qc /\ (s < 1)%Qc /\
    (s = 0%Qc <-> [3; 1; 1] = []).
Proof.
  apply (partial_binary_sum_unit_interval [3; 1; 1]).
  repeat constructor; lia.
Defined.

(** * Further properties of the expansion *)

Section Truncation.

Lemma exponent_total_nonneg (exps : list Z) :
  all_at_least_1 exps -> Z.of_nat (List.length exps) <= exponent_total exps.
Proof.
  induction 1 as [| m rest Hm Hrest IH]; cbn [exponent_total fold_right List.length].
  - lia.
  - fold (exponent_total rest). lia.
Qed.

(** The remainder enters the value of an expansion scaled by
    [2^-(m_1+...+m_k)]. *)
Lemma expansion_value_split (exps : list Z) (r : Qc) :
  all_at_least_1 exps ->
  expansion_value exps r =
  (expansion_value exps 0 + r / of_int (2 ^ exponent_total exps))%Qc.
Proof.
  induction 1 as [| m rest Hm Hrest IH];
    cbn [expansion_value exponent_total fold_right].
  - rewrite of_int_pow2_0. field. apply Q_apart_0_1.
  - fold (exponent_total rest).
    pose proof (exponent_total_nonneg rest Hrest) as Hnn.
    rewrite IH, of_int_pow2_add by lia.
    pose proof (of_int_pow2_nonzero m ltac:(lia)).
    pose proof (of_int_pow2_nonzero (exponent_total rest) ltac:(lia)).
    field. split; assumption.
Qed.

Lemma scaled_remainder_bounds (r T : Q) :
  (0 <= r)%Q -> (r < 1)%Q -> (0 < T)%Q ->
  (0 <= r / T)%Q /\ (r / T < 1 / T)%Q.
Proof.
  intros Hr0 Hr1 HT. split.
  - apply Qle_shift_div_l; [exact HT | lra].
  - apply Qlt_shift_div_l; [exact HT |].
    assert (E : (r / T * T == r)%Q) by (field; lra).
    rewrite E. exact Hr1.
Qed.

Lemma inject_pow2_pos (t : Z) : 0 <= t -> (0 < inject_Z (2 ^ t))%Q.
Proof.
  intros Ht. change 0%Q with (inject_Z 0). rewrite <- Zlt_Qlt.
  now apply pow2_pos.
Qed.

End Truncation.

(** X1: for [0 < x < 1] and [n >= 1] the partial sum of the returned
    exponents never exceeds [x] and falls short of it by less than
    [2^-(m_1+...+m_k)], where [m_1+...+m_k] is at least the number of
    exponents returned. *)
Theorem truncation_error_bound (x : Qc) (n : Z) :
  (0 < x)%Qc -> (x < 1)%Qc -> 1 <= n ->
  exists exps s,
    binary_exponents x n = Ok exps /\
    partial_binary_sum exps = Ok s /\
    (s <= x)%Qc /\
    (x - s < 1 / of_int (2 ^ exponent_total exps))%Qc /\
    Z.of_nat (List.length exps) <= exponent_total exps.
Proof.
  intros H0 H1 Hn.
  destruct (binary_exponents_spec x n H0 H1 Hn)
    as (rem & exps & _ & Eb & Hr0 & Hr1 & _ & Hall & _ & Hval).
  exists exps, (expansion_value exps 0%Qc).
  split; [exact Eb |]. split; [now apply partial_binary_sum_value |].
  pose proof (exponent_total_nonneg exps Hall) as Hnn.
  rewrite (expansion_value_split exps rem Hall) in Hval.
  set (s := expansion_value exps 0%Qc) in *.
  set (t := exponent_total exps) in *.
  destruct (scaled_remainder_bounds (this rem) (inject_Z (2 ^ t)))
    as [Hlo Hhi]; [exact Hr0 | exact Hr1 | apply inject_pow2_pos; lia |].
  split; [| split; [| exact Hnn]].
  - unfold Qcle. rewrite Hval, this_plus, this_div, this_of_int. lra.
  - unfold Qclt.
    rewrite this_minus, Hval, this_plus, !this_div, this_of_int, this_one.
    lra.
Qed.

Lemma truncation_error_bound_witness :
  exists exps s,
    binary_exponents (frac 1 3) 4 = Ok exps /\
    partial_binary_sum exps = Ok s /\
    (s <= frac 1 3)%Qc /\
    (frac 1 3 - s < 1 / of_int (2 ^ exponent_total exps))%Qc /\
    Z.of_nat (List.length exps) <= exponent_total exps.
Proof.
  apply (truncation_error_bound (frac 1 3) 4);
    [reflexivity | reflexivity | lia].
Defined.

(** X2: asking for more terms only extends the answer.  For every [x] and
    all bounds [1 <= n <= n'], if [binary_exponents x n'] returns a list
    then [binary_exponents x n] returns a prefix of it. *)
Theorem smaller_bound_gives_prefix (x : Qc) (n n' : Z) (exps' : list Z) :
  1 <= n -> n <= n' ->
  binary_exponents x n' = Ok exps' ->
  exists exps suffix,
    binary_exponents x n = Ok exps /\ exps' = exps ++ suffix.
Proof.
  intros Hn Hnn'.
  rewrite !binary_exponents_for_range by lia.
  replace (Z.to_nat n') with (Z.to_nat n + (Z.to_nat n' - Z.to_nat n))%nat by lia.
  rewrite for_range_add.
  destruct (for_range (Z.to_nat n) x []) as [[rem exps] | e]; cbn [bind];
    [| discriminate].
  destruct (for_range _ rem exps) as [[rem' e'] | e] eqn:Ef; cbn [bind];
    [| discriminate].
  intros [= <-].
  destruct (for_range_length _ _ _ _ _ Ef) as (suffix & -> & _).
  exists exps, suffix. split; reflexivity.
Qed.

Lemma smaller_bound_gives_prefix_witness :
  exists exps suffix,
    binary_exponents (frac 1 3) 2 = Ok exps /\ [2; 2; 2; 2] = exps ++ suffix.
Proof.
  apply (smaller_bound_gives_prefix (frac 1 3) 2 4 [2; 2; 2; 2]);
    [lia | lia | reflexivity].
Defined.

Section Reexpansion.

(** The exponent a pass emits is determined by the remainder: it is the
    only [m >= 0] with [1 <= rem * 2^m < 2]. *)
Lemma loop_body_unique (rem : Qc) (m : Z) :
  (0 < rem)%Qc -> (rem < 1)%Qc -> 0 <= m ->
  (1 <= rem * of_int (2 ^ m))%Qc -> (rem * of_int (2 ^ m) < 1 + 1)%Qc ->
  loop_body rem = Ok (m, (rem * of_int (2 ^ m) - 1)%Qc).
Proof.
  intros H0 H1 Hm Hlo Hhi.
  destruct (loop_body_spec rem H0 H1) as (m' & Eb & _ & Hm' & Hr0 & _ & Hmin).
  destruct (Z.lt_trichotomy m m') as [Hlt | [-> | Hgt]]; [exfalso | exact Eb | exfalso].
  - specialize (Hmin m ltac:(lia)).
    unfold Qcle, Qclt in *. lra.
  - unfold Qcle, Qclt in *.
    rewrite this_minus, this_mult, this_of_int, this_zero, this_one in Hr0.
    rewrite this_plus, this_mult, this_of_int, this_one in Hhi.
    rewrite this_zero in H0.
    assert (E : 2 ^ m = 2 ^ m' * 2 ^ (m - m')).
    { rewrite <- pow2_split by lia. f_equal. lia. }
    rewrite E, inject_Z_mult in Hhi.
    pose proof (inject_pow2_ge_2 (m - m') ltac:(lia)) as H2.
    assert ((1 * 2 <= this rem * inject_Z (2 ^ m') * inject_Z (2 ^ (m - m')))%Q).
    { apply Qle_trans with (this rem * inject_Z (2 ^ m') * 2)%Q.
      - apply Qmult_le_compat_r; lra.
      - apply Qmult_le_l; [lra | exact H2]. }
    rewrite <- Qmult_assoc in H. lra.
Qed.

(** Expanding the value of a list of positive exponents gives the list
    back, with remainder 0, as soon as the bound allows for its length. *)
Lemma for_range_expansion_value (exps : list Z) :
  all_at_least_1 exps ->
  forall k acc,
    (List.length exps <= k)%nat ->
    for_range k (expansion_value exps 0%Qc) acc = Ok (0%Qc, acc ++ exps).
Proof.
  induction 1 as [| m rest Hm Hrest IH]; intros k acc Hk.
  - cbn [expansion_value]. rewrite app_nil_r. apply for_range_at_zero.
  - destruct k as [| k]; [cbn in Hk; lia |].
    cbn [List.length] in Hk.
    assert (Hall : all_at_least_1 (m :: rest)) by (constructor; assumption).
    destruct (expansion_value_bounds (m :: rest) 0%Qc Hall)
      as (_ & Hv1 & Hvpos); [apply Qle_refl | reflexivity |].
    specialize (Hvpos ltac:(discriminate)).
    destruct (expansion_value_bounds rest 0%Qc Hrest)
      as (Hu0 & Hu1 & _); [apply Qle_refl | reflexivity |].
    cbn [for_range].
    rewrite Qc_eq_bool_false by now apply positive_nonzero.
    cbn [expansion_value] in *.
    set (u := expansion_value rest 0%Qc) in *.
    pose proof (of_int_pow2_nonzero m ltac:(lia)) as HM.
    assert (Eu : (((1 + u) / of_int (2 ^ m)) * of_int (2 ^ m) = 1 + u)%Qc)
      by (field; exact HM).
    rewrite (loop_body_unique _ m Hvpos Hv1 ltac:(lia)).
    + cbn [bind]. rewrite Eu.
      replace (1 + u - 1)%Qc with u by ring.
      rewrite IH by lia. now rewrite <- app_assoc.
    + rewrite Eu. unfold Qcle in *. rewrite this_plus, this_one.
      rewrite this_zero in Hu0. lra.
    + rewrite Eu. unfold Qclt in *. rewrite !this_plus, this_one.
      rewrite this_one in Hu1. lra.
Qed.

End Reexpansion.

(** X3: the expansion inverts the partial sum.  For every list of positive
    integers and every bound [n >= 1] not below its length,
    [partial_binary_sum] returns a fraction whose expansion up to [n] terms
    is the list itself. *)
Theorem expansion_of_partial_sum (exps : list Z) (n : Z) :
  all_at_least_1 exps -> 1 <= n -> Z.of_nat (List.length exps) <= n ->
  exists s,
    partial_binary_sum exps = Ok s /\ binary_exponents s n = Ok exps.
Proof.
  intros Hall Hn Hlen.
  exists (expansion_value exps 0%Qc).
  split; [now apply partial_binary_sum_value |].
  rewrite binary_exponents_for_range by exact Hn.
  rewrite (for_range_expansion_value exps Hall) by lia.
  reflexivity.
Qed.

Lemma expansion_of_partial_sum_witness :
  exists s,
    partial_binary_sum [3; 1; 2] = Ok s /\ binary_exponents s 5 = Ok [3; 1; 2].
Proof.
  apply (expansion_of_partial_sum [3; 1; 2] 5);
    [repeat constructor; lia | lia | cbn; lia].
Defined.

Section AboveOne.

Lemma bit_length_monotone (p q : Z) :
  0 < p -> p <= q -> bit_length p <= bit_length q.
Proof.
  intros Hp Hpq. unfold bit_length.
  destruct (Z.eqb_spec p 0); [lia |]. destruct (Z.eqb_spec q 0); [lia |].
  rewrite !Z.abs_eq by lia.
  pose proof (Z.log2_le_mono p q Hpq). lia.
Qed.

(** With [0 < p < q] the bit-length computation runs into a negative
    shift count, at line 55 or at line 58. *)
Lemma ceil_log2_below_one (p q : Z) :
  0 < p -> p < q ->
  ceil_log2 p q = Raise ValueError_negative_shift_count.
Proof.
  intros Hp Hpq.
  pose proof (bit_length_monotone p q Hp ltac:(lia)) as Hbits.
  unfold ceil_log2, floor_log2. cbv zeta.
  destruct (Z.eq_dec (bit_length p - bit_length q) 0) as [E | NE].
  - rewrite E. rewrite lshift_nonneg by lia. cbn [bind].
    rewrite Z.pow_0_r, Z.mul_1_r.
    destruct (Z.ltb_spec p q); [| lia].
    now rewrite lshift_neg by lia.
  - now rewrite lshift_neg by lia.
Qed.

Lemma lt_1_num_den (y : Qc) :
  (0 < this y)%Q -> (this y < 1)%Q -> 0 < numerator y < denominator y.
Proof.
  unfold numerator, denominator, Qlt. destruct (this y) as [a b].
  cbn [Qnum Qden]. lia.
Qed.

Lemma reciprocal_lt_1 (r : Q) : (1 < r)%Q -> (0 < / r)%Q /\ (/ r < 1)%Q.
Proof.
  intros H1.
  assert (H0 : (0 < r)%Q) by lra.
  pose proof (Qinv_lt_0_compat r H0) as Hi.
  split; [exact Hi |].
  assert (E : (r * / r == 1)%Q) by (apply Qmult_inv_r; lra).
  destruct (Qlt_le_dec (/ r) 1) as [| Hge]; [assumption | exfalso].
  assert ((1 * / r < r * / r)%Q) by (apply Qmult_lt_r; assumption).
  lra.
Qed.

Lemma loop_body_above_one (x : Qc) :
  (1 < x)%Qc -> loop_body x = Raise ValueError_negative_shift_count.
Proof.
  intros H1. unfold Qclt in H1. rewrite this_one in H1.
  assert (NE : x <> 0%Qc).
  { intros ->. rewrite this_zero in H1. lra. }
  unfold loop_body. rewrite truediv_nonzero by exact NE. cbn [bind].
  destruct (reciprocal_lt_1 _ H1) as [Hi0 Hi1].
  assert (E : (this (1 / x)%Qc == / this x)%Q).
  { rewrite this_div, this_one. unfold Qdiv. apply Qmult_1_l. }
  rewrite <- E in Hi0, Hi1.
  destruct (lt_1_num_den _ Hi0 Hi1) as [Hp Hpq].
  now rewrite ceil_log2_below_one.
Qed.

End AboveOne.

(** X4: on every [x > 1], with any bound [n >= 1], [binary_exponents]
    raises [ValueError] for a negative shift count in its first pass: the
    reciprocal is below 1 and the bit-length difference or the floor
    computed from it is negative. *)
Theorem above_one_raises_negative_shift (x : Qc) (n : Z) :
  (1 < x)%Qc -> 1 <= n ->
  binary_exponents x n = Raise ValueError_negative_shift_count.
Proof.
  intros H1 Hn. rewrite binary_exponents_for_range by exact Hn.
  destruct (Z.to_nat n) as [| k] eqn:Ek; [lia |].
  cbn [for_range].
  assert (NE : x <> 0%Qc).
  { intros ->. unfold Qclt in H1. rewrite this_zero, this_one in H1. lra. }
  rewrite Qc_eq_bool_false by exact NE.
  now rewrite loop_body_above_one.
Qed.

Lemma above_one_raises_negative_shift_witness :
  binary_exponents (frac 7 4) 3 = Raise ValueError_negative_shift_count.
Proof.
  apply (above_one_raises_negative_shift (frac 7 4) 3); [reflexivity | lia].
Defined.

Section SumOutcome.

(** Lines 70-74 on any list: the loop completes when every running total
    is nonnegative and otherwise stops at the first negative one, on the
    shift of line 73. *)
Lemma sum_loop_outcome (exps : list Z) :
  forall total cum,
    match sum_loop exps total cum with
    | Ok _ => Forall (fun c => 0 <= c) (cumulative cum exps)
    | Raise e =>
        e = ValueError_negative_shift_count /\
        Exists (fun c => c < 0) (cumulative cum exps)
    end.
Proof.
  induction exps as [| m rest IH]; intros total cum; cbn [sum_loop cumulative].
  - constructor.
  - destruct (Z.lt_ge_cases (cum + m) 0) as [Hneg | Hnn].
    + rewrite lshift_neg by exact Hneg. cbn [bind].
      split; [reflexivity | now apply Exists_cons_hd].
    + rewrite lshift_nonneg by exact Hnn. cbn [bind].
      rewrite Fraction_one_pow2 by exact Hnn. cbn [bind].
      specialize (IH (total + 1 / of_int (2 ^ (cum + m)))%Qc (cum + m)).
      destruct (sum_loop rest _ (cum + m)) as [s | e].
      * now constructor.
      * destruct IH as [-> Hex]. split; [reflexivity | now apply Exists_cons_tl].
Qed.

End SumOutcome.

(** X5: [partial_binary_sum] on an arbitrary list of integers returns a
    fraction exactly when every running total [m_1 + ... + m_k] is
    nonnegative; otherwise some running total is negative and the
    exception is [ValueError] for a negative shift count.  It never divides
    by zero. *)
Theorem partial_binary_sum_outcome (exps : list Z) :
  match partial_binary_sum exps with
  | Ok _ => Forall (fun c => 0 <= c) (cumulative 0 exps)
  | Raise e =>
      e = ValueError_negative_shift_count /\
      Exists (fun c => c < 0) (cumulative 0 exps)
  end.
Proof.
  unfold partial_binary_sum. apply sum_loop_outcome.
Qed.

Section Concatenation.

Lemma all_at_least_1_app (a b : list Z) :
  all_at_least_1 a -> all_at_least_1 b -> all_at_least_1 (a ++ b).
Proof. intros Ha Hb. apply Forall_app. split; assumption. Qed.

Lemma expansion_value_app (a b : list Z) (r : Qc) :
  expansion_value (a ++ b) r = expansion_value a (expansion_value b r).
Proof.
  induction a as [| m a IH]; cbn [app expansion_value]; [reflexivity |].
  now rewrite IH.
Qed.

(** [bits_loop] only appends to the list it is given. *)
Lemma bits_loop_acc (exps : list Z) :
  forall bits, bits_loop exps bits = bits ++ bits_loop exps [].
Proof.
  induction exps as [| m rest IH]; intros bits; cbn [bits_loop].
  - now rewrite app_nil_r.
  - rewrite (IH ((bits ++ _) ++ _)), (IH (([] ++ _) ++ _)). cbn [app].
    now rewrite <- !app_assoc.
Qed.

Lemma bits_loop_app (a b : list Z) :
  forall bits, bits_loop (a ++ b) bits = bits_loop b (bits_loop a bits).
Proof.
  induction a as [| m a IH]; intros bits; cbn [app bits_loop]; [reflexivity |].
  apply IH.
Qed.

Lemma string_of_list_ascii_app (l1 l2 : list ascii) :
  string_of_list_ascii (l1 ++ l2) =
  (string_of_list_ascii l1 ++ string_of_list_ascii l2)%string.
Proof.
  induction l1 as [| c l1 IH]; cbn; [reflexivity | now rewrite IH].
Qed.

End Concatenation.

(** X6: the partial sum of a concatenation.  For lists [a] and [b] of
    positive integers, [partial_binary_sum (a ++ b)] is the partial sum of
    [a] plus the partial sum of [b] scaled by [2^-(a_1+...+a_k)]. *)
Theorem partial_binary_sum_app (a b : list Z) :
  all_at_least_1 a -> all_at_least_1 b ->
  exists sa sb,
    partial_binary_sum a = Ok sa /\
    partial_binary_sum b = Ok sb /\
    partial_binary_sum (a ++ b) =
      Ok (sa + sb / of_int (2 ^ exponent_total a))%Qc.
Proof.
  intros Ha Hb.
  exists (expansion_value a 0%Qc), (expansion_value b 0%Qc).
  split; [now apply partial_binary_sum_value |].
  split; [now apply partial_binary_sum_value |].
  rewrite partial_binary_sum_value by now apply all_at_least_1_app.
  f_equal. rewrite expansion_value_app.
  now apply expansion_value_split.
Qed.

Lemma partial_binary_sum_app_witness :
  exists sa sb,
    partial_binary_sum [1; 2] = Ok sa /\
    partial_binary_sum [3] = Ok sb /\
    partial_binary_sum ([1; 2] ++ [3]) =
      Ok (sa + sb / of_int (2 ^ exponent_total [1; 2]%Z))%Qc.
Proof.
  apply (partial_binary_sum_app [1; 2] [3]); repeat constructor; lia.
Defined.

(** X7: rendering distributes over concatenation: for any two lists of
    integers the string rendered from [a ++ b] is the string of [a]
    followed by the string of [b]. *)
Theorem exps_to_bitstring_app (a b : list Z) :
  exps_to_bitstring (a ++ b) =
  (exps_to_bitstring a ++ exps_to_bitstring b)%string.
Proof.
  unfold exps_to_bitstring.
  rewrite bits_loop_app, bits_loop_acc. apply string_of_list_ascii_app.
Qed.

Section Alphabet.

Lemma str_mul_zero_digits (k : Z) : Forall binary_digit (str_mul "0"%char k).
Proof.
  unfold str_mul. induction (Z.to_nat k) as [| j IH]; cbn [repeat].
  - constructor.
  - constructor; [now left | exact IH].
Qed.

Lemma str_mul_zero_no_ones (k : Z) :
  count_occ ascii_dec (str_mul "0"%char k) "1"%char = 0%nat.
Proof.
  unfold str_mul. induction (Z.to_nat k) as [| j IH]; cbn [repeat];
    [reflexivity |].
  rewrite count_occ_cons_neq by discriminate. exact IH.
Qed.

Lemma bits_loop_digits (exps : list Z) :
  Forall binary_digit (bits_loop exps []).
Proof.
  induction exps as [| m rest IH]; cbn [bits_loop]; [constructor |].
  rewrite bits_loop_acc. cbn [app].
  constructor; [now right |].
  apply Forall_app. split; [apply str_mul_zero_digits | exact IH].
Qed.

Lemma bits_loop_ones (exps : list Z) :
  count_occ ascii_dec (bits_loop exps []) "1"%char = List.length exps.
Proof.
  induction exps as [| m rest IH]; cbn [bits_loop List.length]; [reflexivity |].
  rewrite bits_loop_acc. cbn [app].
  rewrite count_occ_cons_eq by reflexivity.
  now rewrite count_occ_app, str_mul_zero_no_ones, IH.
Qed.

End Alphabet.

(** X8: for any list of integers, positive or not, the rendered string
    consists of the characters ['0'] and ['1'] only and contains exactly one
    ['1'] per exponent. *)
Theorem exps_to_bitstring_digits (exps : list Z) :
  Forall binary_digit (list_ascii_of_string (exps_to_bitstring exps)) /\
  count_ones (exps_to_bitstring exps) = List.length exps.
Proof.
  unfold count_ones, exps_to_bitstring.
  rewrite list_ascii_of_string_of_list_ascii.
  split; [apply bits_loop_digits | apply bits_loop_ones].
Qed.

Section RenderedValue.

Local Open Scope Q_scope.

Lemma value_after_zeros (k : nat) (l : list ascii) :
  binary_point_value (string_of_list_ascii (repeat "0"%char k ++ l)) ==
  binary_point_value (string_of_list_ascii l) / inject_Z (2 ^ Z.of_nat k).
Proof.
  induction k as [| k IH].
  - cbn [repeat app]. change (inject_Z (2 ^ Z.of_nat 0)) with 1. field.
  - cbn [repeat app string_of_list_ascii binary_point_value].
    rewrite IH. change (digit_value "0"%char) with 0.
    replace (Z.of_nat (S k)) with (1 + Z.of_nat k)%Z by lia.
    rewrite pow2_split by lia. rewrite inject_Z_mult.
    change (inject_Z (2 ^ 1)) with 2.
    pose proof (inject_pow2_pos (Z.of_nat k) ltac:(lia)).
    field. lra.
Qed.

(** The rendered list followed by one more ['1'], read after the binary
    point. *)
Lemma bits_loop_value (exps : list Z) :
  all_at_least_1 exps ->
  binary_point_value (string_of_list_ascii (bits_loop exps [] ++ ["1"%char])) ==
  (1 + this (expansion_value exps 0%Qc)) / 2.
Proof.
  induction 1 as [| m rest Hm Hrest IH].
  - cbn. reflexivity.
  - cbn [bits_loop]. rewrite bits_loop_acc. cbn [app].
    rewrite <- app_assoc.
    cbn [string_of_list_ascii binary_point_value].
    unfold str_mul. rewrite value_after_zeros, IH.
    change (digit_value "1"%char) with 1.
    cbn [expansion_value].
    rewrite this_div, this_plus, this_one, this_of_int.
    rewrite Z2Nat.id by lia.
    rewrite (two_pow_succ m Hm), inject_Z_mult.
    change (inject_Z 2) with 2.
    pose proof (inject_pow2_pos (m - 1) ltac:(lia)).
    field. lra.
Qed.

End RenderedValue.

(** X9: what the rendered string is worth.  For every list of positive
    integers with partial sum [s], the rendered string with one more ['1']
    appended, read as [0.<string>] in base 2, is exactly [(1 + s) / 2]: the
    string is the binary expansion of [s] moved one place to the right
    behind a leading 1, without its last 1. *)
Theorem rendered_value_shifted (exps : list Z) :
  all_at_least_1 exps ->
  exists s,
    partial_binary_sum exps = Ok s /\
    (binary_point_value (exps_to_bitstring exps ++ "1")%string ==
     (1 + this s) / 2)%Q.
Proof.
  intros Hall. exists (expansion_value exps 0%Qc).
  split; [now apply partial_binary_sum_value |].
  unfold exps_to_bitstring.
  change "1"%string with (string_of_list_ascii ["1"%char]).
  rewrite <- string_of_list_ascii_app.
  now apply bits_loop_value.
Qed.

Lemma rendered_value_shifted_witness :
  exists s,
    partial_binary_sum [1; 2] = Ok s /\
    (binary_point_value (exps_to_bitstring [1; 2]%Z ++ "1")%string ==
     (1 + this s) / 2)%Q.
Proof.
  apply (rendered_value_shifted [1; 2]). repeat constructor; lia.
Defined.

Section Dyadic.

Lemma expansion_numerator_odd (exps : list Z) :
  all_at_least_1 exps -> exps <> [] -> Z.odd (expansion_numerator exps) = true.
Proof.
  induction 1 as [| m rest Hm Hrest IH]; intros NE; [now elim NE |].
  cbn [expansion_numerator]. rewrite Z.odd_add.
  destruct rest as [| m' rest'].
  - reflexivity.
  - rewrite IH by discriminate.
    pose proof (exponent_total_nonneg (m' :: rest') Hrest) as Hlen.
    cbn [List.length] in Hlen.
    rewrite <- Z.negb_even, Z.even_pow by lia. reflexivity.
Qed.

Lemma expansion_numerator_coprime (exps : list Z) :
  all_at_least_1 exps ->
  Z.gcd (expansion_numerator exps) (2 ^ exponent_total exps) = 1.
Proof.
  intros Hall. destruct exps as [| m rest]; [reflexivity |].
  pose proof (expansion_numerator_odd _ Hall ltac:(discriminate)) as Hodd.
  pose proof (exponent_total_nonneg _ Hall) as Hnn.
  apply Z.coprime_pow_r; [lia |].
  apply Z.coprime_mod_l_iff.
  rewrite Zmod_odd, Hodd. reflexivity.
Qed.

Lemma expansion_value_dyadic (exps : list Z) :
  all_at_least_1 exps ->
  expansion_value exps 0%Qc =
  (of_int (expansion_numerator exps) / of_int (2 ^ exponent_total exps))%Qc.
Proof.
  induction 1 as [| m rest Hm Hrest IH];
    cbn [expansion_value expansion_numerator exponent_total fold_right].
  - apply Qc_is_canon. reflexivity.
  - fold (exponent_total rest).
    pose proof (exponent_total_nonneg rest Hrest) as Hnn.
    rewrite IH, of_int_pow2_add by lia.
    pose proof (of_int_pow2_nonzero m ltac:(lia)).
    pose proof (of_int_pow2_nonzero (exponent_total rest) ltac:(lia)).
    assert (E : of_int (2 ^ exponent_total rest + expansion_numerator rest) =
                (of_int (2 ^ exponent_total rest) +
                 of_int (expansion_numerator rest))%Qc).
    { apply Qc_is_canon.
      rewrite this_plus, !this_of_int, inject_Z_plus. reflexivity. }
    rewrite E. field. split; assumption.
Qed.

(** A fraction equal to [K / 2^t] with [K] and [2^t] coprime has exactly
    that numerator and that denominator. *)
Lemma lowest_terms_unique (s : Qc) (K t : Z) :
  0 <= t -> Z.gcd K (2 ^ t) = 1 ->
  s = (of_int K / of_int (2 ^ t))%Qc ->
  numerator s = K /\ denominator s = 2 ^ t.
Proof.
  intros Ht Hgcd ->.
  pose proof (pow2_pos t Ht) as Hpos.
  assert (E : (this (of_int K / of_int (2 ^ t))%Qc == K # Z.to_pos (2 ^ t))%Q).
  { rewrite this_div, !this_of_int, Qmake_Qdiv, Z2Pos.id by exact Hpos.
    reflexivity. }
  apply Qred_complete in E.
  rewrite canon in E.
  assert (Ered : Qred (K # Z.to_pos (2 ^ t)) = (K # Z.to_pos (2 ^ t))).
  { apply Qred_iff. cbn [Qnum Qden]. now rewrite Z2Pos.id by exact Hpos. }
  rewrite Ered in E.
  unfold numerator, denominator. rewrite E. cbn [Qnum Qden].
  split; [reflexivity | now apply Z2Pos.id].
Qed.

End Dyadic.

(** X10: the fraction returned by [partial_binary_sum] for a list of
    positive integers has denominator exactly [2^(m_1+...+m_k)], and an odd
    numerator unless the list is empty. *)
Theorem partial_binary_sum_denominator (exps : list Z) :
  all_at_least_1 exps ->
  exists s,
    partial_binary_sum exps = Ok s /\
    denominator s = 2 ^ exponent_total exps /\
    (exps <> [] -> Z.odd (numerator s) = true).
Proof.
  intros Hall. exists (expansion_value exps 0%Qc).
  split; [now apply partial_binary_sum_value |].
  pose proof (exponent_total_nonneg exps Hall) as Hnn.
  assert (Ht : 0 <= exponent_total exps) by lia.
  destruct (lowest_terms_unique _ _ _ Ht
              (expansion_numerator_coprime exps Hall)
              (expansion_value_dyadic exps Hall)) as [En Ed].
  split; [exact Ed |].
  intros NE. rewrite En. now apply expansion_numerator_odd.
Qed.

Lemma partial_binary_sum_denominator_witness :
  exists s,
    partial_binary_sum [1; 2] = Ok s /\
    denominator s = 2 ^ exponent_total [1; 2] /\
    ([1; 2] <> [] -> Z.odd (numerator s) = true).
Proof.
  apply (partial_binary_sum_denominator [1; 2]). repeat constructor; lia.
Defined.

Section Termination.

Lemma of_int_plus (a b : Z) : of_int (a + b) = (of_int a + of_int b)%Qc.
Proof.
  apply Qc_is_canon. rewrite this_plus, !this_of_int, inject_Z_plus.
  reflexivity.
Qed.

Lemma of_int_opp (a : Z) : of_int (- a) = (- of_int a)%Qc.
Proof.
  apply Qc_is_canon. rewrite this_opp, !this_of_int, inject_Z_opp.
  reflexivity.
Qed.

Lemma fraction_as_quotient (x : Qc) :
  x = (of_int (numerator x) / of_int (denominator x))%Qc.
Proof.
  apply Qc_is_canon. rewrite this_div, !this_of_int.
  unfold numerator, denominator. rewrite <- Qmake_Qdiv.
  destruct (this x) as [a b]. reflexivity.
Qed.

(** No integer lies strictly between 0 and 1. *)
Lemma of_int_not_in_unit (J : Z) :
  (0 < of_int J)%Qc -> (of_int J < 1)%Qc -> False.
Proof.
  unfold Qclt. rewrite this_of_int, this_zero, this_one.
  change 0%Q with (inject_Z 0). change 1%Q with (inject_Z 1).
  rewrite <- !Zlt_Qlt. lia.
Qed.

(** A remainder left over after the expansion has consumed at least as
    many bits as the denominator of [x] has is an integer. *)
Lemma leftover_is_integer (x rem : Qc) (exps : list Z) (t : Z) :
  all_at_least_1 exps -> 0 <= t -> t <= exponent_total exps ->
  denominator x = 2 ^ t ->
  x = expansion_value exps rem ->
  rem = of_int (numerator x * 2 ^ (exponent_total exps - t)
                - expansion_numerator exps).
Proof.
  intros Hall Ht HtT Hden Hval.
  rewrite (expansion_value_split exps rem Hall) in Hval.
  rewrite (expansion_value_dyadic exps Hall) in Hval.
  rewrite (fraction_as_quotient x), Hden in Hval.
  set (T := exponent_total exps) in *.
  assert (ET : 2 ^ T = 2 ^ t * 2 ^ (T - t)).
  { rewrite <- pow2_split by lia. f_equal. lia. }
  rewrite ET, of_int_mult in Hval.
  unfold Z.sub at 1. rewrite of_int_plus, of_int_opp, of_int_mult.
  pose proof (of_int_pow2_nonzero t Ht) as HP.
  pose proof (of_int_pow2_nonzero (T - t) ltac:(lia)) as HD.
  set (A := of_int (numerator x)) in *.
  set (K := of_int (expansion_numerator exps)) in *.
  set (P := of_int (2 ^ t)) in *.
  set (D := of_int (2 ^ (T - t))) in *.
  assert (E : rem = ((K / (P * D) + rem / (P * D)) * (P * D) - K)%Qc)
    by (field; split; assumption).
  rewrite <- Hval in E. rewrite E. field. exact HP.
Qed.

End Termination.



(** X12: fractions over a power of two terminate.  For [0 < x < 1] whose
    denominator is [2^t], every bound [n > t] makes [binary_exponents] stop
    early: it returns fewer than [n] exponents, they add up to [t], and
    their partial sum is exactly [x]. *)
Theorem dyadic_terminates_early (x : Qc) (n t : Z) :
  (0 < x)%Qc -> (x < 1)%Qc -> 0 <= t -> denominator x = 2 ^ t -> t < n ->
  exists exps,
    binary_exponents x n = Ok exps /\
    Z.of_nat (List.length exps) < n /\
    exponent_total exps = t /\
    partial_binary_sum exps = Ok x.
Proof.
  intros H0 H1 Ht Hden Htn.
  destruct (binary_exponents_spec x n H0 H1 ltac:(lia))
    as (rem & exps & _ & Eb & Hr0 & Hr1 & Hlen & Hall & Hshort & Hval).
  pose proof (exponent_total_nonneg exps Hall) as Hnn.
  assert (HT : 0 <= exponent_total exps) by lia.
  assert (Hzero : rem = 0%Qc).
  { destruct (Qc_eq_dec rem 0%Qc) as [E | NE]; [exact E | exfalso].
    assert (Hfull : ~ Z.of_nat (List.length exps) < n)
      by (intros Hl; apply NE, Hshort, Hl).
    pose proof (leftover_is_integer x rem exps t Hall Ht ltac:(lia) Hden Hval)
      as EJ.
    rewrite EJ in Hr0, Hr1, NE.
    apply (of_int_not_in_unit _ (nonneg_nonzero_pos _ Hr0 NE) Hr1). }
  subst rem.
  pose proof Hval as Hdy.
  rewrite (expansion_value_dyadic exps Hall) in Hdy.
  destruct (lowest_terms_unique _ _ _ HT
              (expansion_numerator_coprime exps Hall) Hdy) as [_ Ed].
  rewrite Hden in Ed.
  assert (Et : exponent_total exps = t).
  { symmetry. apply (Z.pow_inj_r 2); [lia | lia | lia | exact Ed]. }
  exists exps. split; [exact Eb |]. split; [lia |]. split; [exact Et |].
  rewrite partial_binary_sum_value by exact Hall. now rewrite <- Hval.
Qed.

Lemma dyadic_terminates_early_witness :
  exists exps,
    binary_exponents (frac 5 8) 4 = Ok exps /\
    Z.of_nat (List.length exps) < 4 /\
    exponent_total exps = 3 /\
    partial_binary_sum exps = Ok (frac 5 8).
Proof.
  apply (dyadic_terminates_early (frac 5 8) 4 3);
    [reflexivity | reflexivity | lia | reflexivity | lia].
Defined.

(** * [parse_x] after the text has been read *)

Section ParseX.

Lemma Qc_lt_bool_spec (a b : Qc) : reflect (a < b)%Qc (Qc_lt_bool a b).
Proof.
  unfold Qc_lt_bool. destruct (a ?= b)%Qc eqn:E; constructor.
  - rewrite Qclt_alt, E. discriminate.
  - now apply Qclt_alt.
  - rewrite Qclt_alt, E. discriminate.
Qed.

Lemma Qc_ge_bool_spec (a b : Qc) : reflect (b <= a)%Qc (Qc_ge_bool a b).
Proof.
  unfold Qc_ge_bool. destruct (Qc_lt_bool_spec a b) as [Hlt | Hge]; constructor.
  - now apply Qclt_not_le.
  - now apply Qcnot_lt_le.
Qed.

(** Line 30 leaves [(a mod b) / b] of [x = a / b]. *)
Lemma integer_part_removed (x : Qc) :
  (this (x - of_int (numerator x / denominator x))%Qc ==
   (numerator x mod denominator x) # Qden (this x))%Q.
Proof.
  rewrite this_minus, this_of_int. unfold numerator, denominator.
  destruct (this x) as [a b]. cbn [Qnum Qden].
  unfold Qeq, Qminus, Qplus, Qopp, inject_Z. cbn [Qnum Qden].
  rewrite Z.mod_eq by lia. rewrite Pos2Z.inj_mul. ring.
Qed.

Lemma coprime_divisor_is_1 (a b : Z) :
  0 < b -> Z.gcd a b = 1 -> a mod b = 0 -> b = 1.
Proof.
  intros Hb Hgcd Hmod.
  apply Z.mod_divide in Hmod; [| lia].
  apply Z.divide_gcd_iff in Hmod; [| lia].
  rewrite Z.gcd_comm in Hgcd. lia.
Qed.

(** Line 30 on a fraction [x >= 1]: the result is in [0,1), differs from
    [x] by a positive integer, and is 0 exactly for an integer [x]. *)
Lemma drop_integer_part_above_1 (x : Qc) :
  (1 <= x)%Qc ->
  let y := (x - of_int (numerator x / denominator x))%Qc in
  (0 <= y)%Qc /\ (y < 1)%Qc /\ 1 <= numerator x / denominator x /\
  (y = 0%Qc <-> denominator x = 1).
Proof.
  intros H1 y.
  pose proof (integer_part_removed x) as Ey. fold y in Ey.
  pose proof (denominator_pos x) as Hb.
  pose proof (Z.mod_pos_bound (numerator x) (denominator x) Hb) as [Hm0 Hm1].
  assert (Hfloor : 1 <= numerator x / denominator x).
  { apply Z.div_le_lower_bound; [exact Hb |].
    unfold Qcle in H1. rewrite this_one in H1.
    unfold numerator, denominator, Qle in *.
    destruct (this x) as [a b]. cbn [Qnum Qden] in *. lia. }
  unfold Qcle, Qclt. rewrite Ey, this_zero, this_one.
  split; [unfold Qle; cbn [Qnum Qden]; lia |].
  split; [unfold Qlt, denominator in *; cbn [Qnum Qden]; lia |].
  split; [exact Hfloor |]. split.
  - intros E.
    assert (Hz : (this y == 0)%Q) by now rewrite E.
    rewrite Ey in Hz. unfold Qeq in Hz. cbn [Qnum Qden] in Hz.
    apply (coprime_divisor_is_1 (numerator x)); [exact Hb | | lia].
    apply lowest_terms.
  - intros E. apply Qc_is_canon. rewrite Ey, E, Z.mod_1_r. reflexivity.
Qed.

Lemma below_1_integer_nonpositive (x : Qc) :
  (x < 1)%Qc -> denominator x = 1 -> (x <= 0)%Qc.
Proof.
  unfold Qclt, Qcle, denominator. rewrite this_one, this_zero.
  unfold Qlt, Qle. destruct (this x) as [a b]. cbn [Qnum Qden].
  intros Hlt [= ->]. lia.
Qed.

Lemma Parsed_fraction_eq (r : parse_outcome) (y : Qc) :
  match r with
  | Parsed s => Qeq_bool (this s) (this y)
  | ValueError_x_must_lie_strictly_between_0_and_1 => false
  end = true ->
  r = Parsed y.
Proof.
  destruct r as [s |]; [| discriminate].
  intros H. f_equal. apply Qc_is_canon. now apply Qeq_bool_eq.
Qed.

End ParseX.

(** X13: whatever [parse_x] returns lies strictly between 0 and 1, differs
    from the fraction read by a nonnegative integer, and is returned
    unchanged when parsed again. *)
Theorem parse_x_returns_fractional_part (x y : Qc) :
  parse_x_of_fraction x = Parsed y ->
  (0 < y)%Qc /\ (y < 1)%Qc /\
  (exists k, 0 <= k /\ x = (y + of_int k)%Qc) /\
  parse_x_of_fraction y = Parsed y.
Proof.
  unfold parse_x_of_fraction at 1. cbv zeta.
  destruct (Qc_lt_bool_spec 0 (drop_integer_part x)) as [H0 |]; [| discriminate].
  destruct (Qc_lt_bool_spec (drop_integer_part x) 1) as [H1 |]; [| discriminate].
  cbn [andb]. intros [= <-].
  split; [exact H0 |]. split; [exact H1 |]. split.
  - unfold drop_integer_part.
    destruct (Qc_ge_bool_spec x 1) as [Hge | _].
    + exists (numerator x / denominator x).
      split; [| ring].
      pose proof (drop_integer_part_above_1 x Hge). cbv zeta in *. lia.
    + exists 0. split; [lia |]. change (of_int 0) with 0%Qc. ring.
  - set (y := drop_integer_part x) in *.
    unfold parse_x_of_fraction, drop_integer_part.
    destruct (Qc_ge_bool_spec y 1) as [Hge | _].
    { exfalso. now apply (Qclt_not_le _ _ H1). }
    destruct (Qc_lt_bool_spec 0 y); [| contradiction].
    destruct (Qc_lt_bool_spec y 1); [| contradiction].
    reflexivity.
Qed.

Lemma parse_x_returns_fractional_part_witness :
  (0 < frac 3 4)%Qc /\ (frac 3 4 < 1)%Qc /\
  (exists k, 0 <= k /\ frac 11 4 = (frac 3 4 + of_int k)%Qc) /\
  parse_x_of_fraction (frac 3 4) = Parsed (frac 3 4).
Proof.
  apply (parse_x_returns_fractional_part (frac 11 4) (frac 3 4)).
  apply Parsed_fraction_eq. reflexivity.
Defined.

(** X14: [parse_x] rejects the fraction read exactly when it is zero,
    negative or an integer; a negative fraction is not reduced to its
    fractional part. *)
Theorem parse_x_rejects_iff (x : Qc) :
  parse_x_of_fraction x = ValueError_x_must_lie_strictly_between_0_and_1 <->
  (x <= 0)%Qc \/ denominator x = 1.
Proof.
  unfold parse_x_of_fraction, drop_integer_part.
  destruct (Qc_ge_bool_spec x 1) as [Hge | Hlt].
  - destruct (drop_integer_part_above_1 x Hge) as (Hy0 & Hy1 & _ & Hint).
    cbv zeta in *.
    set (y := (x - of_int (numerator x / denominator x))%Qc) in *.
    destruct (Qc_lt_bool_spec y 1); [| contradiction].
    destruct (Qc_lt_bool_spec 0 y) as [Hpos | Hnpos]; cbn [andb].
    + split; [discriminate |].
      intros [Hle | Hden].
      * exfalso. apply (Qcle_not_lt _ _ Hle).
        apply Qclt_le_trans with 1%Qc; [reflexivity | exact Hge].
      * apply Hint in Hden. rewrite Hden in Hpos.
        now apply Qlt_irrefl in Hpos.
    + split; [intros _ | reflexivity].
      right. apply Hint.
      destruct (Qcle_lt_or_eq _ _ Hy0) as [? | E]; [contradiction | now symmetry].
  - apply Qcnot_le_lt in Hlt.
    destruct (Qc_lt_bool_spec x 1); [| contradiction].
    destruct (Qc_lt_bool_spec 0 x) as [Hpos | Hnpos]; cbn [andb].
    + split; [discriminate |].
      intros [Hle | Hden].
      * exfalso. now apply (Qcle_not_lt _ _ Hle).
      * exfalso. apply (Qcle_not_lt x 0%Qc); [| exact Hpos].
        now apply below_1_integer_nonpositive.
    + split; [intros _ | reflexivity].
      left. now apply Qcnot_lt_le.
Qed.

(** X15: [parse_x] and the core compose.  For a fraction [y] returned by
    [parse_x], the calls of lines 114 and 119 both return exactly when
    [n >= 1]; with [n < 1] the call of line 114 raises. *)
Theorem parsed_input_runs_iff_bound (x y : Qc) (n : Z) :
  parse_x_of_fraction x = Parsed y ->
  (1 <= n <->
   exists exps approx,
     binary_exponents y n = Ok exps /\ partial_binary_sum exps = Ok approx).
Proof.
  unfold parse_x_of_fraction. cbv zeta.
  destruct (Qc_lt_bool_spec 0 (drop_integer_part x)) as [H0 |]; [| discriminate].
  destruct (Qc_lt_bool_spec (drop_integer_part x) 1) as [H1 |]; [| discriminate].
  cbn [andb]. intros [= <-]. split.
  - intros Hn.
    destruct (binary_exponents_spec _ n H0 H1 Hn)
      as (rem & exps & _ & Eb & _ & _ & _ & Hall & _).
    exists exps, (expansion_value exps 0%Qc).
    split; [exact Eb | now apply partial_binary_sum_value].
  - intros (exps & approx & Eb & _).
    unfold binary_exponents in Eb.
    destruct (Z.ltb_spec n 1); [discriminate | lia].
Qed.

Lemma parsed_input_runs_iff_bound_witness :
  1 <= 3 <->
  exists exps approx,
    binary_exponents (frac 3 4) 3 = Ok exps /\
    partial_binary_sum exps = Ok approx.
Proof.
  apply (parsed_input_runs_iff_bound (frac 11 4) (frac 3 4) 3).
  apply Parsed_fraction_eq. reflexivity.
Defined.

(** X16: the length of the rendered string for any list of integers: an
    exponent [m >= 1] contributes [m] characters, and an exponent below 1
    contributes the single character ['1'], since a string repeated a
    nonpositive number of times is empty. *)
Theorem exps_to_bitstring_length (exps : list Z) :
  Z.of_nat (String.length (exps_to_bitstring exps)) =
  fold_right (fun m acc => Z.max 1 m + acc) 0 exps.
Proof.
  unfold exps_to_bitstring. rewrite string_of_list_ascii_length.
  induction exps as [| m rest IH]; cbn [bits_loop fold_right]; [reflexivity |].
  rewrite bits_loop_acc, !length_app, Nat2Z.inj_add, IH.
  unfold str_mul. rewrite repeat_length. cbn [List.length app]. lia.
Qed.
